(** * GPS route optimizer: a shallow embedding of [gps_route_optimizer.py]

    The optimisation core of the script is embedded function by function:
    [haversine_distance], [calculate_total_distance],
    [find_shortest_route_brute_force], [find_shortest_route_nearest_neighbor],
    [two_opt_improvement], [find_shortest_route_2opt] and [optimize_route].
    Of the shell around it, [read_coordinates_from_file] is embedded on the
    lines of the file, and [main] with [print_route_info] as far as they
    decide how a run ends; the text they print and [write_route_to_file]
    format floats and are left out.

    Arithmetic.  The functions are embedded twice.  In the first embedding
    a [float] is a real number, [math.sin], [math.cos], [math.asin],
    [math.sqrt] and [math.radians] are the real functions and [+], [-],
    [*], [/] and [<] the exact operations on [R]; [float('inf')] is the
    extra element [Inf] of [Bound].  It carries the statements that only
    relate values the code itself compares, which do not depend on how a
    sum is rounded.  The second embedding, [Binary64], is the code on
    binary64 numbers with the running sum rounded at each step; it is
    executable, carries what depends on the rounding (the reversal of a
    short route), and shows, on concrete routes, where sums of different
    orderings part.

    Lists are Python lists read as values; a coordinate is the tuple
    [(latitude, longitude)]; the method argument is the string the caller
    passes; [raise ValueError(...)] is the left injection of a sum. *)

From Stdlib Require Import Floats.
From Stdlib Require Import Ascii String.
From Stdlib Require Import Reals Lra Psatz List Arith Lia Permutation ZArith.
Import ListNotations.

Open Scope R_scope.

(** ** Coordinates *)

Definition Coordinate : Type := (R * R)%type.

Definition Route : Type := list Coordinate.

(** The bounds [read_coordinates_from_file] enforces before a coordinate
    reaches the optimizer. *)
Definition valid_coordinate (c : Coordinate) : Prop :=
  -90 <= fst c <= 90 /\ -180 <= snd c <= 180.

(** [==] on coordinate tuples, as [list.remove] uses it. *)
Definition Coordinate_eq_dec (a b : Coordinate) : {a = b} + {a <> b}.
Proof.
  destruct a as [x1 y1], b as [x2 y2].
  destruct (Req_dec_T x1 x2) as [Hx | Hx]; [| right; congruence].
  destruct (Req_dec_T y1 y2) as [Hy | Hy]; [| right; congruence].
  left; congruence.
Defined.

(** ** [haversine_distance] *)

(** [math.radians] *)
Definition radians (x : R) : R := x * (PI / 180).

Definition haversine_distance (coord1 coord2 : Coordinate) : R :=
  let '(lat1, lon1) := coord1 in
  let '(lat2, lon2) := coord2 in
  let lat1 := radians lat1 in
  let lon1 := radians lon1 in
  let lat2 := radians lat2 in
  let lon2 := radians lon2 in
  let dlat := lat2 - lat1 in
  let dlon := lon2 - lon1 in
  let a := sin (dlat / 2) ^ 2 + cos lat1 * cos lat2 * sin (dlon / 2) ^ 2 in
  let c := 2 * asin (sqrt a) in
  let r := 6371 in
  c * r.

(** ** [calculate_total_distance] *)

(** [route[i]]; every index the code uses is in range, the default is never
    returned. *)
Definition item (route : Route) (i : nat) : Coordinate :=
  nth i route (0, 0).

Definition calculate_total_distance (route : Route) : R :=
  fold_left
    (fun total_distance i =>
       let current_point := item route i in
       let next_point := item route ((i + 1) mod length route) in
       total_distance + haversine_distance current_point next_point)
    (seq 0 (length route))
    0.

(** ** [find_shortest_route_brute_force] *)

(** [itertools.permutations(pool)]: tuples in lexicographic order of the
    positions of [pool].  [selections pool] lists, position by position, the
    element picked first together with the elements left, in their order. *)
Fixpoint selections {A : Type} (pool : list A) : list (A * list A) :=
  match pool with
  | [] => []
  | x :: xs => (x, xs) :: map (fun s => (fst s, x :: snd s)) (selections xs)
  end.

Fixpoint permutations_of_length {A : Type} (n : nat) (pool : list A)
  : list (list A) :=
  match n with
  | O => [[]]
  | S n' =>
      flat_map
        (fun s => map (cons (fst s)) (permutations_of_length n' (snd s)))
        (selections pool)
  end.

Definition permutations {A : Type} (pool : list A) : list (list A) :=
  permutations_of_length (length pool) pool.

(** The value of [shortest_distance]: [float('inf')] or a distance. *)
Inductive Bound : Type :=
| Inf
| Fin (d : R).

(** [distance < shortest_distance] *)
Definition lt_bound (distance : R) (shortest_distance : Bound) : bool :=
  match shortest_distance with
  | Inf => true
  | Fin s => if Rlt_dec distance s then true else false
  end.

(** One pass of the [for perm in ...] body over the pair
    [(shortest_distance, best_route)]. *)
Definition brute_force_step (first_point : Coordinate)
    (st : Bound * Route) (perm : list Coordinate) : Bound * Route :=
  let '(shortest_distance, best_route) := st in
  let route := [first_point] ++ perm in
  let distance := calculate_total_distance route in
  if lt_bound distance shortest_distance
  then (Fin distance, route)
  else (shortest_distance, best_route).

Definition find_shortest_route_brute_force (coordinates : Route) : Route :=
  if (length coordinates <=? 1)%nat then coordinates
  else
    match coordinates with
    | [] => coordinates
    | first_point :: remaining_points =>
        snd (fold_left (brute_force_step first_point)
               (permutations remaining_points)
               (Inf, coordinates))
    end.

(** ** [find_shortest_route_nearest_neighbor] *)

(** [min(x :: xs, key=key)]: the first element whose key is minimal. *)
Definition min_by (key : Coordinate -> R) (x : Coordinate)
    (xs : list Coordinate) : Coordinate :=
  fold_left (fun best p => if Rlt_dec (key p) (key best) then p else best)
    xs x.

(** [l.remove(x)]: drops the first element equal to [x]. *)
Fixpoint remove_first (x : Coordinate) (l : list Coordinate)
  : list Coordinate :=
  match l with
  | [] => []
  | y :: ys => if Coordinate_eq_dec y x then ys else y :: remove_first x ys
  end.

(** The [while unvisited] loop on the pair [(route, unvisited)]; it stops on
    an empty [unvisited], or when [fuel] iterations were run. *)
Fixpoint nearest_neighbor_loop (fuel : nat) (route unvisited : Route)
  : Route * Route :=
  match fuel with
  | O => (route, unvisited)
  | S fuel' =>
      match unvisited with
      | [] => (route, unvisited)
      | p :: ps =>
          let current_point := last route (0, 0) in
          let nearest_point :=
            min_by (haversine_distance current_point) p ps in
          nearest_neighbor_loop fuel'
            (route ++ [nearest_point])
            (remove_first nearest_point unvisited)
      end
  end.

Definition find_shortest_route_nearest_neighbor (coordinates : Route)
  : Route :=
  if (length coordinates <=? 1)%nat then coordinates
  else
    match coordinates with
    | [] => coordinates
    | first_point :: unvisited =>
        fst (nearest_neighbor_loop (length unvisited) [first_point] unvisited)
    end.

(** ** [two_opt_improvement] *)

(** [new_route[i:j+1] = reversed(new_route[i:j+1])] on a copy of [route]:
    the slice is the first [j + 1 - i] elements from position [i] on (none
    when [j + 1 <= i]), and the slice assignment puts its reversal in its
    place. *)
Definition reverse_segment (route : Route) (i j : nat) : Route :=
  let segment := firstn (j + 1 - i) (skipn i route) in
  firstn i route ++ rev segment ++ skipn (j + 1 - i) (skipn i route).

(** The local variables of [two_opt_improvement]. *)
Record TwoOptState : Type := mkTwoOptState {
  route : Route;
  best_route : Route;
  best_distance : R;
  improved : bool
}.

(** [for j in range(i + 2, len(route))], up to its [break]. *)
Fixpoint scan_j (st : TwoOptState) (i : nat) (js : list nat) : TwoOptState :=
  match js with
  | [] => st
  | j :: js' =>
      if ((j =? length (route st) - 1) && (i =? 0))%nat%bool
      then scan_j st i js'
      else
        let new_route := reverse_segment (route st) i j in
        let new_distance := calculate_total_distance new_route in
        if Rlt_dec new_distance (best_distance st)
        then mkTwoOptState new_route new_route new_distance true
        else scan_j st i js'
  end.

(** [for i in range(len(route))], up to its [break]. *)
Fixpoint scan_i (st : TwoOptState) (n : nat) (rows : list nat) : TwoOptState :=
  match rows with
  | [] => st
  | i :: rows' =>
      let st' := scan_j st i (seq (i + 2) (n - (i + 2))) in
      if improved st' then st' else scan_i st' n rows'
  end.

(** [for iteration in range(max_iterations)], up to its [break]. *)
Fixpoint two_opt_loop (iterations : nat) (st : TwoOptState) : TwoOptState :=
  match iterations with
  | O => st
  | S k =>
      let st0 :=
        mkTwoOptState (route st) (best_route st) (best_distance st) false in
      let n := length (route st0) in
      let st1 := scan_i st0 n (seq 0 n) in
      if negb (improved st1) then st1 else two_opt_loop k st1
  end.

Definition two_opt_improvement (initial : Route) (max_iterations : Z)
  : Route :=
  best_route
    (two_opt_loop (Z.to_nat max_iterations)
       (mkTwoOptState initial initial (calculate_total_distance initial)
          false)).

(** ** [find_shortest_route_2opt] *)

Definition find_shortest_route_2opt (coordinates : Route) : Route :=
  let initial_route := find_shortest_route_nearest_neighbor coordinates in
  let optimized_route := two_opt_improvement initial_route 1000 in
  optimized_route.

(** ** [optimize_route] *)

Inductive Error : Type :=
| ValueError (message : string).

Definition invalid_method : Error :=
  ValueError
    "Method must be 'brute_force', 'nearest_neighbor', '2opt', or 'auto'".

Definition optimize_route (coordinates : Route) (method : string)
  : Error + (Route * R) :=
  match coordinates with
  | [] => inr ([], 0)
  | _ :: _ =>
      if (length coordinates =? 1)%nat then inr (coordinates, 0)
      else
        let method :=
          if String.eqb method "auto"
          then if (length coordinates <=? 8)%nat
               then "brute_force"%string
               else "2opt"%string
          else method in
        let chosen : Error + Route :=
          if String.eqb method "brute_force"
          then inr (find_shortest_route_brute_force coordinates)
          else if String.eqb method "nearest_neighbor"
          then inr (find_shortest_route_nearest_neighbor coordinates)
          else if String.eqb method "2opt"
          then inr (find_shortest_route_2opt coordinates)
          else inl invalid_method in
        match chosen with
        | inl e => inl e
        | inr route =>
            let total_distance := calculate_total_distance route in
            inr (route, total_distance)
        end
  end.

(** The method identifiers [optimize_route] accepts. *)
Definition valid_method (method : string) : Prop :=
  method = "auto"%string \/ method = "brute_force"%string \/
  method = "nearest_neighbor"%string \/ method = "2opt"%string.

(** ** The same functions on binary64

    [Binary64] is the optimiser again, on the values the interpreter
    computes: a [float] is a binary64 number, [+], [-], [*], [/], [<] and
    [math.sqrt] are the IEEE operations, and the sum of a tour is the
    running sum of the loop, rounded at each step.  [math.sin], [math.cos],
    [math.asin] and the [pow] behind [x ** 2] belong to the C library and
    are taken from a [Libm]; what the interpreter does around them, the
    error test of the [math] module and the cases [float.__pow__] answers
    itself, is kept.  Everything here is executable.  The properties of the real
    model below that only relate values the code compares carry over; the
    runs at the end show where the rounding of the sum separates the two. *)

Module Binary64.

Import PrimFloat.
Local Open Scope float_scope.

Definition Coordinate : Type := (float * float)%type.

Definition Route : Type := list Coordinate.

Record Libm : Type := mkLibm {
  libm_sin : float -> float;
  libm_cos : float -> float;
  libm_asin : float -> float;
  (** [pow(x, 2.0)] *)
  libm_pow2 : float -> float
}.

(** What a call can raise. *)
Inductive Raise : Type :=
| MathDomainError
| OverflowError
| InvalidMethod.

Definition Result (A : Type) : Type := (Raise + A)%type.

Definition ret {A : Type} (a : A) : Result A := inr a.

Definition bind {A B : Type} (m : Result A) (k : A -> Result B)
  : Result B :=
  match m with
  | inl e => inl e
  | inr a => k a
  end.

Notation "x <- m ;; k" := (bind m (fun x => k))
  (at level 61, m at next level, right associativity).

(** Two calls agree: both raise, or both return the same value. *)
Definition same_result {A : Type} (x y : Result A) : Prop :=
  match x, y with
  | inr a, inr b => a = b
  | inl _, inl _ => True
  | _, _ => False
  end.

(** What the proofs ask of the C library: its sine is odd. *)
Definition odd_sin (L : Libm) : Prop :=
  forall x : float, libm_sin L (- x) = - libm_sin L x.

(** [math.radians]: [x * (pi / 180)]. *)
Definition radians (x : float) : float := x * 0x1.1df46a2529d39p-6.

(** The wrapper of the [math] module around a function of the C library
    that cannot overflow: [ValueError] when the result is [nan] and the
    argument is not, or the result is infinite and the argument finite. *)
Definition math_1 (func : float -> float) (x : float) : Result float :=
  let r := func x in
  if (is_nan r && negb (is_nan x))%bool then inl MathDomainError
  else if (is_infinity r && is_finite x)%bool then inl MathDomainError
  else ret r.

Definition math_sin (L : Libm) (x : float) : Result float :=
  math_1 (libm_sin L) x.

Definition math_cos (L : Libm) (x : float) : Result float :=
  math_1 (libm_cos L) x.

Definition math_sqrt (x : float) : Result float :=
  math_1 sqrt x.

Definition math_asin (L : Libm) (x : float) : Result float :=
  math_1 (libm_asin L) x.

(** [x ** 2] on a float, as [float.__pow__] computes it: [nan], the
    infinities, the zeros and [1] are answered without the C library;
    otherwise [pow] is called on the absolute value, the exponent being
    even, and an infinite result is an [OverflowError]. *)
Definition square (L : Libm) (x : float) : Result float :=
  if is_nan x then ret x
  else if is_infinity x then ret infinity
  else if x =? 0 then ret 0
  else
    let iv := abs x in
    if iv =? 1 then ret 1
    else
      let ix := libm_pow2 L iv in
      if is_infinity ix then inl OverflowError else ret ix.

Definition haversine_distance (L : Libm) (coord1 coord2 : Coordinate)
  : Result float :=
  let '(lat1, lon1) := coord1 in
  let '(lat2, lon2) := coord2 in
  let lat1 := radians lat1 in
  let lon1 := radians lon1 in
  let lat2 := radians lat2 in
  let lon2 := radians lon2 in
  let dlat := lat2 - lat1 in
  let dlon := lon2 - lon1 in
  s1 <- math_sin L (dlat / 2) ;;
  p1 <- square L s1 ;;
  c1 <- math_cos L lat1 ;;
  c2 <- math_cos L lat2 ;;
  s2 <- math_sin L (dlon / 2) ;;
  p2 <- square L s2 ;;
  let a := p1 + c1 * c2 * p2 in
  q <- math_sqrt a ;;
  t <- math_asin L q ;;
  let c := 2 * t in
  let r := 6371 in
  ret (c * r).

(** The parts of [haversine_distance], named for the proofs:
    [sin(d / 2) ** 2], and the distance from the four terms of [a]. *)
Definition half_chord (L : Libm) (d : float) : Result float :=
  s <- math_sin L (d / 2) ;;
  square L s.

Definition central_angle (L : Libm) (p1 c1 c2 p2 : float) : Result float :=
  q <- math_sqrt (p1 + c1 * c2 * p2) ;;
  t <- math_asin L q ;;
  ret (2 * t * 6371).

Definition item (route : Route) (i : nat) : Coordinate :=
  nth i route (0, 0).

Definition calculate_total_distance (L : Libm) (route : Route)
  : Result float :=
  fold_left
    (fun acc i =>
       total_distance <- acc ;;
       let current_point := item route i in
       let next_point := item route ((i + 1) mod length route) in
       d <- haversine_distance L current_point next_point ;;
       ret (total_distance + d))
    (seq 0 (length route))
    (ret 0).

Definition brute_force_step (L : Libm) (first_point : Coordinate)
    (acc : Result (float * Route)) (perm : list Coordinate)
  : Result (float * Route) :=
  st <- acc ;;
  let '(shortest_distance, best_route) := st in
  let route := [first_point] ++ perm in
  distance <- calculate_total_distance L route ;;
  if distance <? shortest_distance
  then ret (distance, route)
  else ret (shortest_distance, best_route).

Definition find_shortest_route_brute_force (L : Libm) (coordinates : Route)
  : Result Route :=
  if (length coordinates <=? 1)%nat then ret coordinates
  else
    match coordinates with
    | [] => ret coordinates
    | first_point :: remaining_points =>
        st <- fold_left (brute_force_step L first_point)
                (permutations remaining_points)
                (ret (infinity, coordinates)) ;;
        ret (snd st)
    end.

(** [min(x :: xs, key=key)]: the keys are computed in order, the first
    element of minimal key is returned. *)
Definition min_by (key : Coordinate -> Result float) (x : Coordinate)
    (xs : list Coordinate) : Result Coordinate :=
  kx <- key x ;;
  st <- fold_left
          (fun acc p =>
             st <- acc ;;
             kp <- key p ;;
             if kp <? snd st then ret (p, kp) else ret st)
          xs (ret (x, kx)) ;;
  ret (fst st).

(** [==] on coordinate tuples of numbers.  (A tuple that holds a [nan]
    is equal to itself in a list search, by identity; the reader refuses
    [nan], l.253-258, and no route here holds one.) *)
Definition coordinate_eqb (a b : Coordinate) : bool :=
  ((fst a =? fst b) && (snd a =? snd b))%bool.

Fixpoint remove_first (x : Coordinate) (l : list Coordinate)
  : list Coordinate :=
  match l with
  | [] => []
  | y :: ys => if coordinate_eqb y x then ys else y :: remove_first x ys
  end.

Fixpoint nearest_neighbor_loop (L : Libm) (fuel : nat)
    (route unvisited : Route) : Result (Route * Route) :=
  match fuel with
  | O => ret (route, unvisited)
  | S fuel' =>
      match unvisited with
      | [] => ret (route, unvisited)
      | p :: ps =>
          let current_point := last route (0, 0) in
          nearest_point <- min_by (haversine_distance L current_point) p ps ;;
          nearest_neighbor_loop L fuel'
            (route ++ [nearest_point])
            (remove_first nearest_point unvisited)
      end
  end.

Definition find_shortest_route_nearest_neighbor (L : Libm)
    (coordinates : Route) : Result Route :=
  if (length coordinates <=? 1)%nat then ret coordinates
  else
    match coordinates with
    | [] => ret coordinates
    | first_point :: unvisited =>
        st <- nearest_neighbor_loop L (length unvisited)
                [first_point] unvisited ;;
        ret (fst st)
    end.

Definition reverse_segment (route : Route) (i j : nat) : Route :=
  let segment := firstn (j + 1 - i) (skipn i route) in
  firstn i route ++ rev segment ++ skipn (j + 1 - i) (skipn i route).

Record TwoOptState : Type := mkTwoOptState {
  route : Route;
  best_route : Route;
  best_distance : float;
  improved : bool
}.

Fixpoint scan_j (L : Libm) (st : TwoOptState) (i : nat) (js : list nat)
  : Result TwoOptState :=
  match js with
  | [] => ret st
  | j :: js' =>
      if ((j =? length (route st) - 1) && (i =? 0))%nat%bool
      then scan_j L st i js'
      else
        let new_route := reverse_segment (route st) i j in
        new_distance <- calculate_total_distance L new_route ;;
        if new_distance <? best_distance st
        then ret (mkTwoOptState new_route new_route new_distance true)
        else scan_j L st i js'
  end.

Fixpoint scan_i (L : Libm) (st : TwoOptState) (n : nat) (rows : list nat)
  : Result TwoOptState :=
  match rows with
  | [] => ret st
  | i :: rows' =>
      st' <- scan_j L st i (seq (i + 2) (n - (i + 2))) ;;
      if improved st' then ret st' else scan_i L st' n rows'
  end.

Fixpoint two_opt_loop (L : Libm) (iterations : nat) (st : TwoOptState)
  : Result TwoOptState :=
  match iterations with
  | O => ret st
  | S k =>
      let st0 :=
        mkTwoOptState (route st) (best_route st) (best_distance st) false in
      let n := length (route st0) in
      st1 <- scan_i L st0 n (seq 0 n) ;;
      if negb (improved st1) then ret st1 else two_opt_loop L k st1
  end.

Definition two_opt_improvement (L : Libm) (initial : Route)
    (max_iterations : Z) : Result Route :=
  best_distance <- calculate_total_distance L initial ;;
  st <- two_opt_loop L (Z.to_nat max_iterations)
          (mkTwoOptState initial initial best_distance false) ;;
  ret (best_route st).

Definition find_shortest_route_2opt (L : Libm) (coordinates : Route)
  : Result Route :=
  initial_route <- find_shortest_route_nearest_neighbor L coordinates ;;
  two_opt_improvement L initial_route 1000.

Definition optimize_route (L : Libm) (coordinates : Route) (method : string)
  : Result (Route * float) :=
  match coordinates with
  | [] => ret ([], 0)
  | _ :: _ =>
      if (length coordinates =? 1)%nat then ret (coordinates, 0)
      else
        let method :=
          if String.eqb method "auto"
          then if (length coordinates <=? 8)%nat
               then "brute_force"%string
               else "2opt"%string
          else method in
        route <-
          (if String.eqb method "brute_force"
           then find_shortest_route_brute_force L coordinates
           else if String.eqb method "nearest_neighbor"
           then find_shortest_route_nearest_neighbor L coordinates
           else if String.eqb method "2opt"
           then find_shortest_route_2opt L coordinates
           else inl InvalidMethod) ;;
        total_distance <- calculate_total_distance L route ;;
        ret (route, total_distance)
  end.

(** The value at [x] of a function given by a table of its values;
    [nan] where the table is silent. *)
Definition tabulated (table : list (float * float)) (x : float) : float :=
  match find (fun entry => fst entry =? x) table with
  | Some entry => snd entry
  | None => nan
  end.

(** The values [math.sin], [math.cos], [math.asin] and [x ** 2] return
    (CPython on glibc, x86-64) at the arguments the runs below reach, each
    with its decimal form. *)
Definition sin_values : list (float * float) :=
  [(-0x1.1df46a2529d39p-5, -0x1.1de58c9f7dc27p-5);
     (* -0.03490658503988659 -> -0.03489949670250097 *)
   (-0x1.1df46a2529d39p-7, -0x1.1df37c4954c21p-7);
     (* -0.008726646259971648 -> -0.008726535498373935 *)
   (0, 0);
   (0x1.1df46a2529d39p-7, 0x1.1df37c4954c21p-7);
     (* 0.008726646259971648 -> 0.008726535498373935 *)
   (0x1.1df46a2529d39p-5, 0x1.1de58c9f7dc27p-5)].
     (* 0.03490658503988659 -> 0.03489949670250097 *)

Definition cos_values : list (float * float) :=
  [(0, 1);
   (0x1.1df46a2529d39p-6, 0x1.ffec097f5af8ap-1);
     (* 0.017453292519943295 -> 0.9998476951563913 *)
   (0x1.1df46a2529d39p-4, 0x1.fec0b7170fff6p-1)].
     (* 0.06981317007977318 -> 0.9975640502598242 *)

Definition asin_values : list (float * float) :=
  [(0x1.1de8561462480p-7, 0x1.1de943d465bf3p-7);
     (* 0.008725206404749608 -> 0.00872531711574529 *)
   (0x1.1df37c4954c21p-7, 0x1.1df46a2529d39p-7);
     (* 0.008726535498373935 -> 0.008726646259971648 *)
   (0x1.94616b89b4507p-7, 0x1.94640c400ae39p-7);
     (* 0.012340714939826926 -> 0.012341028195883218 *)
   (0x1.1de58c9f7dc27p-5, 0x1.1df46a2529d39p-5);
     (* 0.03489949670250097 -> 0.03490658503988659 *)
   (0x1.26ad7f989182ep-5, 0x1.26bdc6ca435e4p-5)].
     (* 0.03597140236938433 -> 0.035979164373298095 *)

Definition pow2_values : list (float * float) :=
  [(0x1.1df37c4954c21p-7, 0x1.3f680a5076462p-14);
     (* 0.008726535498373935 -> 7.615242180438042e-05 *)
   (0x1.1de58c9f7dc27p-5, 0x1.3f48e8f00098cp-10)].
     (* 0.03489949670250097 -> 0.001217974870087876 *)

(** [L] returns the values above at their arguments; a run that reaches
    no other argument is then the run of the code with [L]. *)
Definition has_values (L : Libm) : Prop :=
  Forall (fun entry => libm_sin L (fst entry) = snd entry) sin_values /\
  Forall (fun entry => libm_cos L (fst entry) = snd entry) cos_values /\
  Forall (fun entry => libm_asin L (fst entry) = snd entry) asin_values /\
  Forall (fun entry => libm_pow2 L (fst entry) = snd entry) pow2_values.

(** A function of the positive arguments continued to the negative ones
    as an odd function, zeros and [nan] kept as they are. *)
Definition odd_extension (f : float -> float) (x : float) : float :=
  if x <? 0 then - f (- x)
  else if 0 <? x then f x
  else x.

(** The C library cut down to these values, its sine odd; off them it
    says [nan] and stands for nothing. *)
Definition sample_libm : Libm :=
  mkLibm (odd_extension (tabulated sin_values)) (tabulated cos_values)
    (tabulated asin_values) (tabulated pow2_values).

(** The routes of the runs. *)
Definition square_route : Route := [(0, 0); (0, 1); (1, 0); (1, 1)].

Definition triangle : Route := [(0, 0); (0, 1); (1, 1)].

Definition long_triangle : Route := [(0, 0); (0, 1); (4, 1)].

(** [long_triangle] from its second point. *)
Definition long_triangle_from_second : Route := [(0, 1); (0, 0); (4, 1)].

End Binary64.

(** ** Closed tours as lists of edges

    [path_length p] adds the distances of the consecutive pairs of [p];
    a route is a closed tour, the path through its points and back to the
    first.  [calculate_total_distance_tour] below shows the indexed loop of
    [calculate_total_distance] computes [tour_length]. *)
Fixpoint path_length (p : Route) : R :=
  match p with
  | a :: (b :: _) as rest => haversine_distance a b + path_length rest
  | _ => 0
  end.

Definition tour_length (r : Route) : R :=
  match r with
  | [] => 0
  | x :: _ => path_length (r ++ [x])
  end.

(** [sum (map f l)] is what a [total += f(i)] loop over [l] adds. *)
Definition sum (l : list R) : R := fold_right Rplus 0 l.

(** ** Invariants of the loops *)

(** [le_bound b x]: the bound is a distance, at most [x]. *)
Definition le_bound (b : Bound) (x : R) : Prop :=
  match b with
  | Inf => False
  | Fin s => s <= x
  end.

(** [shortest_distance] is the evaluator's value for [best_route] once it
    was assigned. *)
Definition tracks (st : Bound * Route) : Prop :=
  match fst st with
  | Inf => True
  | Fin s => s = calculate_total_distance (snd st)
  end.

(** What the loops of [two_opt_improvement] maintain, for the route [r0]
    the function was called on. *)
Definition two_opt_invariant (r0 : Route) (st : TwoOptState) : Prop :=
  Permutation r0 (route st) /\
  best_route st = route st /\
  best_distance st = calculate_total_distance (best_route st) /\
  best_distance st <= calculate_total_distance r0.

(** ** [read_coordinates_from_file]

    A line is the string of its bytes; ['#'] and [','] are ASCII, so the
    prefix and membership tests below agree with Python's on characters.
    The built-ins whose result depends on Unicode tables or on the float
    grammar are taken as they are, in [Builtins]: [str.strip], [str.split]
    with and without a separator, and [float].  [float] may also return
    [inf], [-inf] or [nan], which no comparison with a bound accepts.  The
    warnings the function prints are kept as values, with the line number
    and what the message shows. *)

Inductive PyFloat : Type :=
| Finite (x : R)
| NonFinite.

Record Builtins : Type := mkBuiltins {
  strip : string -> string;
  split_on_comma : string -> list string;
  split_on_whitespace : string -> list string;
  (** [None] is a [ValueError]. *)
  float : string -> option PyFloat
}.

Inductive Warning : Type :=
| InvalidFormat (line_num : nat) (line : string)
| InvalidLatitude (line_num : nat) (lat : PyFloat)
| InvalidLongitude (line_num : nat) (lon : PyFloat)
| InvalidNumberFormat (line_num : nat) (line : string).

(** What one pass of the [for line_num, line in enumerate(file, 1)] body
    does: [continue] without a message, [continue] after a warning, or
    [coordinates.append]. *)
Inductive LineResult : Type :=
| Skipped
| Warned (w : Warning)
| Appended (c : Coordinate).

(** [c in line] *)
Fixpoint contains (c : Ascii.ascii) (line : string) : bool :=
  match line with
  | EmptyString => false
  | String c' rest => if Ascii.eqb c' c then true else contains c rest
  end.

(** [not line or line.startswith('#')] *)
Definition blank_or_comment (line : string) : bool :=
  match line with
  | EmptyString => true
  | _ => String.prefix "#"%string line
  end.

(** [lo <= v <= hi], with the value when it holds. *)
Definition within (lo hi : R) (v : PyFloat) : option R :=
  match v with
  | Finite x =>
      if Rle_dec lo x then if Rle_dec x hi then Some x else None else None
  | NonFinite => None
  end.

Definition read_line (B : Builtins) (line_num : nat) (raw : string)
  : LineResult :=
  let line := strip B raw in
  if blank_or_comment line then Skipped
  else
    let parts :=
      if contains ","%char line then split_on_comma B line
      else split_on_whitespace B line in
    match parts with
    | [part0; part1] =>
        match float B (strip B part0) with
        | None => Warned (InvalidNumberFormat line_num line)
        | Some lat =>
            match float B (strip B part1) with
            | None => Warned (InvalidNumberFormat line_num line)
            | Some lon =>
                match within (-90) 90 lat with
                | None => Warned (InvalidLatitude line_num lat)
                | Some lat_value =>
                    match within (-180) 180 lon with
                    | None => Warned (InvalidLongitude line_num lon)
                    | Some lon_value => Appended (lat_value, lon_value)
                    end
                end
            end
        end
    | _ => Warned (InvalidFormat line_num line)
    end.

(** The loop over the lines, on [(coordinates, warnings)]. *)
Definition read_step (B : Builtins) (st : Route * list Warning)
    (numbered : nat * string) : Route * list Warning :=
  let '(coordinates, warnings) := st in
  let '(line_num, line) := numbered in
  match read_line B line_num line with
  | Skipped => (coordinates, warnings)
  | Warned w => (coordinates, warnings ++ [w])
  | Appended c => (coordinates ++ [c], warnings)
  end.

(** [enumerate(file, start)] *)
Definition enumerate (start : nat) (lines : list string)
  : list (nat * string) :=
  combine (seq start (length lines)) lines.

Definition read_lines (B : Builtins) (lines : list string)
  : Route * list Warning :=
  fold_left (read_step B) (enumerate 1 lines) ([], []).

(** How a call ends: [sys.exit(code)], an exception nobody catches, or a
    value. *)
Inductive Uncaught : Type :=
| UncaughtValueError (e : Error)
| UncaughtIndexError
| UncaughtUnicodeDecodeError.

Inductive Outcome (A : Type) : Type :=
| SysExit (code : Z)
| Raised (e : Uncaught)
| Returned (a : A).

Arguments SysExit {A} code.
Arguments Raised {A} e.
Arguments Returned {A} a.

(** What opening and iterating a file gives: the [FileNotFoundError] or
    other [OSError] the function catches, the [UnicodeDecodeError] that
    iterating raises on bytes that do not decode (a [ValueError], raised in
    the [for] header outside the inner [try], which no handler of the
    function catches), or the lines. *)
Inductive FileRead : Type :=
| CannotRead
| CannotDecode
| Lines (lines : list string).

Definition FileSystem : Type := string -> FileRead.

Definition read_coordinates_from_file (B : Builtins) (fs : FileSystem)
    (filename : string) : Outcome (Route * list Warning) :=
  match fs filename with
  | CannotRead => SysExit 1
  | CannotDecode => Raised UncaughtUnicodeDecodeError
  | Lines lines => Returned (read_lines B lines)
  end.

(** The coordinates a line contributes. *)
Definition appended_by (B : Builtins) (raw : string) : Route :=
  match read_line B 0 raw with
  | Appended c => [c]
  | _ => []
  end.

(** A small instance of [Builtins] for runs on plain input: [strip] leaves
    the text as it is, [split] cuts at every [','] or at every space, and
    [float] reads an unsigned run of decimal digits. *)
Fixpoint split_at (sep : ascii) (s : string) : list string :=
  match s with
  | EmptyString => [EmptyString]
  | String c rest =>
      if Ascii.eqb c sep then EmptyString :: split_at sep rest
      else
        match split_at sep rest with
        | head :: tail => String c head :: tail
        | [] => [String c EmptyString]
        end
  end.

Fixpoint digits_value (acc : Z) (s : string) : option Z :=
  match s with
  | EmptyString => Some acc
  | String c rest =>
      let n := nat_of_ascii c in
      if ((48 <=? n) && (n <=? 57))%nat%bool
      then digits_value (10 * acc + Z.of_nat (n - 48)) rest
      else None
  end.

Definition digits_float (s : string) : option PyFloat :=
  match s with
  | EmptyString => None
  | _ => option_map (fun z => Finite (IZR z)) (digits_value 0 s)
  end.

Definition plain_builtins : Builtins :=
  mkBuiltins (fun s => s) (split_at ","%char) (split_at " "%char)
    digits_float.

(** Five lines: a comment, a good line, a blank line, a latitude out of
    range and a line with the wrong separator. *)
Definition sample_lines : list string :=
  ["# start"%string; "48,2"%string; ""%string; "95,2"%string;
   "48;2"%string].

(** ** [print_route_info] and [main]

    What the program prints is not modelled, and neither is a [print] that
    fails.  Of [print_route_info] only the access that can fail is kept:
    it reads [route[0]] for its last line.  [write_route_to_file] catches its own
    [IOError] and cannot end [main].  [args] is what [parse_args] returned;
    [argparse] has already refused a method outside [choices]. *)

Definition print_route_info (route : Route) : Outcome unit :=
  match route with
  | [] => Raised UncaughtIndexError
  | _ :: _ => Returned tt
  end.

Record Args : Type := mkArgs {
  input : string;
  output : option string;
  method : string;
  quiet : bool
}.

Definition main (B : Builtins) (fs : FileSystem) (args : Args)
  : Outcome (Route * R) :=
  match read_coordinates_from_file B fs (input args) with
  | SysExit code => SysExit code
  | Raised e => Raised e
  | Returned (coordinates, _) =>
      match coordinates with
      | [] => SysExit 1
      | _ :: _ =>
          match optimize_route coordinates (method args) with
          | inl e => Raised (UncaughtValueError e)
          | inr (optimal_route, distance) =>
              if quiet args then Returned (optimal_route, distance)
              else
                match print_route_info optimal_route with
                | Returned _ => Returned (optimal_route, distance)
                | SysExit code => SysExit code
                | Raised e => Raised e
                end
          end
      end
  end.

(** The line number a warning shows. *)
Definition warning_line (w : Warning) : nat :=
  match w with
  | InvalidFormat n _ => n
  | InvalidLatitude n _ => n
  | InvalidLongitude n _ => n
  | InvalidNumberFormat n _ => n
  end.

(** The warning a numbered line causes. *)
Definition warned_by (B : Builtins) (numbered : nat * string)
  : list Warning :=
  match read_line B (fst numbered) (snd numbered) with
  | Warned w => [w]
  | _ => []
  end.

(** One readable file with three coordinates, for runs of [main]. *)
Definition sample_files : FileSystem :=
  fun name =>
    if String.eqb name "coords.txt"
    then Lines ["# start"%string; "48,2"%string; "49,3"%string;
                "47,1"%string]
    else CannotRead.

Definition sample_args : Args :=
  mkArgs "coords.txt" None "auto" false.

(** ** Vocabulary of the further properties *)

(** [m] is the first element of [l] whose key is minimal: strictly below
    the keys before it, not above the keys after it. *)
Definition first_minimum {A : Type} (key : A -> R) (l : list A) (m : A)
  : Prop :=
  exists pre post : list A,
    l = pre ++ m :: post /\
    (forall z, In z pre -> key m < key z) /\
    (forall z, In z post -> key m <= key z).

(** The distance of the candidate tour the search builds from [perm]. *)
Definition candidate_cost (first_point : Coordinate) (perm : Route) : R :=
  calculate_total_distance ([first_point] ++ perm).

(** [visited] was built greedily from [current]: each point is, among the
    points not yet placed, one nearest to the point placed before it. *)
Fixpoint greedy_chain (current : Coordinate) (visited : Route) : Prop :=
  match visited with
  | [] => True
  | y :: rest =>
      (forall z, In z (y :: rest) ->
                 haversine_distance current y <= haversine_distance current z)
      /\ greedy_chain y rest
  end.

(** The index pairs the two loops of [two_opt_improvement] try on a route
    of [n] points: [i + 2 <= j < n], without the pair [(0, n - 1)]. *)
Definition two_opt_pair (n i j : nat) : Prop :=
  (i + 2 <= j)%nat /\ (j < n)%nat /\ ~ (j = n - 1 /\ i = 0)%nat.

(** No reversal the scan tries shortens the tour. *)
Definition locally_optimal (r : Route) : Prop :=
  forall i j : nat,
    two_opt_pair (length r) i j ->
    calculate_total_distance r
    <= calculate_total_distance (reverse_segment r i j).

(** The state [two_opt_improvement] starts its loop in. *)
Definition two_opt_start (initial : Route) : TwoOptState :=
  mkTwoOptState initial initial (calculate_total_distance initial) false.

(** * Properties *)

(** ** The distance formula *)

Lemma haversine_distance_sym (a b : Coordinate) :
  haversine_distance a b = haversine_distance b a.
Proof.
  destruct a as [lat1 lon1], b as [lat2 lon2]; unfold haversine_distance.
  replace ((radians lat1 - radians lat2) / 2)
    with (- ((radians lat2 - radians lat1) / 2)) by lra.
  replace ((radians lon1 - radians lon2) / 2)
    with (- ((radians lon2 - radians lon1) / 2)) by lra.
  rewrite !sin_neg.
  apply (f_equal (fun a => 2 * asin (sqrt a) * 6371)). ring.
Qed.

Lemma haversine_distance_refl (a : Coordinate) : haversine_distance a a = 0.
Proof.
  destruct a as [lat lon]; unfold haversine_distance.
  replace ((radians lat - radians lat) / 2) with 0 by lra.
  replace ((radians lon - radians lon) / 2) with 0 by lra.
  rewrite sin_0.
  replace (0 ^ 2 + cos (radians lat) * cos (radians lat) * 0 ^ 2) with 0
    by ring.
  rewrite sqrt_0, asin_0. ring.
Qed.

(** ** The real sum of a closed tour

    The lemmas of this part and the next regroup the real sum of the edges;
    they hold of the reals and not of the rounded running sum (see the runs
    on [Binary64] at the end).  No statement about the code rests on them:
    they only serve to exhibit a route the 2-opt scan cannot improve. *)

Lemma fold_left_add (f : nat -> R) (l : list nat) (acc : R) :
  fold_left (fun total i => total + f i) l acc = acc + sum (map f l).
Proof.
  revert acc; induction l as [| i l IH]; intros acc; simpl.
  - ring.
  - rewrite IH. ring.
Qed.

Lemma path_length_edges (p : Route) (d : Coordinate) :
  path_length p =
  sum (map (fun i => haversine_distance (nth i p d) (nth (S i) p d))
         (seq 0 (length p - 1))).
Proof.
  induction p as [| a [| b t] IH].
  - reflexivity.
  - reflexivity.
  - change (path_length (a :: b :: t))
      with (haversine_distance a b + path_length (b :: t)).
    rewrite IH.
    replace (length (a :: b :: t) - 1)%nat with (S (length (b :: t) - 1))
      by (simpl; lia).
    rewrite <- cons_seq, <- seq_shift. simpl. rewrite map_map. reflexivity.
Qed.

Lemma calculate_total_distance_tour (r : Route) :
  calculate_total_distance r = tour_length r.
Proof.
  unfold calculate_total_distance. rewrite fold_left_add, Rplus_0_l.
  destruct r as [| x xs]; [reflexivity |].
  unfold tour_length. rewrite (path_length_edges _ (0, 0)).
  replace (length ((x :: xs) ++ [x]) - 1)%nat with (length (x :: xs))
    by (rewrite length_app; simpl; lia).
  f_equal. apply map_ext_in. intros i Hi. apply in_seq in Hi.
  unfold item. rewrite (app_nth1 (x :: xs) [x]) by lia.
  f_equal.
  destruct (Nat.eq_dec (S i) (length (x :: xs))) as [E | E].
  - replace (i + 1)%nat with (length (x :: xs)) by lia.
    rewrite Nat.Div0.mod_same, E, nth_middle. reflexivity.
  - rewrite Nat.mod_small by lia.
    rewrite app_nth1 by lia. f_equal. lia.
Qed.

(** ** Paths and tours *)

Lemma path_length_app (l1 l2 : Route) (a : Coordinate) :
  path_length (l1 ++ a :: l2) = path_length (l1 ++ [a]) + path_length (a :: l2).
Proof.
  induction l1 as [| x [| y t] IH].
  - simpl. ring.
  - simpl. destruct l2; simpl; ring.
  - change (path_length ((x :: y :: t) ++ a :: l2))
      with (haversine_distance x y + path_length ((y :: t) ++ a :: l2)).
    change (path_length ((x :: y :: t) ++ [a]))
      with (haversine_distance x y + path_length ((y :: t) ++ [a])).
    rewrite IH. ring.
Qed.

Lemma tour_length_rotate (l1 l2 : Route) :
  tour_length (l1 ++ l2) = tour_length (l2 ++ l1).
Proof.
  destruct l1 as [| a l1]; [rewrite app_nil_r; reflexivity |].
  destruct l2 as [| b l2]; [rewrite app_nil_r; reflexivity |].
  pose proof (path_length_app (a :: l1) (l2 ++ [a]) b) as H1.
  pose proof (path_length_app (b :: l2) (l1 ++ [b]) a) as H2.
  simpl app in H1, H2.
  change (path_length (a :: (l1 ++ b :: l2) ++ [a]) =
          path_length (b :: (l2 ++ a :: l1) ++ [b])).
  rewrite <- !app_assoc. simpl app.
  rewrite H1, H2. ring.
Qed.

(** ** Binary64 arithmetic

    What the proofs below use of the IEEE operations, from their
    specification on [spec_float]. *)

Section Binary64Arithmetic.

Local Open Scope float_scope.

Lemma SF64add_comm (X Y : spec_float) : SF64add X Y = SF64add Y X.
Proof.
  destruct X as [[] | [] | | sx mx ex], Y as [[] | [] | | sy my ey];
    try reflexivity.
  unfold SF64add, SFadd. rewrite Z.min_comm, Z.add_comm. reflexivity.
Qed.

Lemma float_add_comm (x y : PrimFloat.float) : x + y = y + x.
Proof. apply Prim2SF_inj. rewrite !add_spec. apply SF64add_comm. Qed.

Lemma SF64mul_comm (X Y : spec_float) : SF64mul X Y = SF64mul Y X.
Proof.
  destruct X as [[] | [] | | [] mx ex], Y as [[] | [] | | [] my ey];
    try reflexivity;
    unfold SF64mul, SFmul; rewrite Pos.mul_comm, Z.add_comm; reflexivity.
Qed.

Lemma float_mul_comm (x y : PrimFloat.float) : x * y = y * x.
Proof. apply Prim2SF_inj. rewrite !mul_spec. apply SF64mul_comm. Qed.

(** Rounding does not look at the sign. *)
Lemma binary_round_aux_opp (s : bool) (m e : Z) (l : location) :
  binary_round_aux prec emax (negb s) m e l
  = SFopp (binary_round_aux prec emax s m e l).
Proof.
  unfold binary_round_aux.
  destruct (shr_fexp prec emax m e l) as [mrs' e'].
  destruct (shr_fexp prec emax _ e' loc_Exact) as [mrs'' e''].
  destruct (shr_m mrs''); try reflexivity.
  destruct (Z.leb e'' _); reflexivity.
Qed.

Lemma binary_round_opp (s : bool) (m : positive) (e : Z) :
  binary_round prec emax (negb s) m e
  = SFopp (binary_round prec emax s m e).
Proof.
  unfold binary_round.
  destruct (shl_align m e _) as [mz ez].
  apply binary_round_aux_opp.
Qed.

Lemma binary_normalize_opp (m e : Z) :
  m <> 0%Z ->
  binary_normalize prec emax (- m) e false
  = SFopp (binary_normalize prec emax m e false).
Proof.
  intros Hm. destruct m as [| p | p]; [contradiction | |]; simpl.
  - apply (binary_round_opp false).
  - apply (binary_round_opp true).
Qed.

(** [y - x] is the opposite of [x - y], unless both are [+0]. *)
Lemma SF64sub_antisym (X Y : spec_float) :
  SF64sub Y X = SFopp (SF64sub X Y) \/
  (SF64sub X Y = S754_zero false /\ SF64sub Y X = S754_zero false).
Proof.
  destruct X as [[] | [] | | sx mx ex], Y as [[] | [] | | sy my ey];
    try (left; reflexivity); try (right; split; reflexivity).
  - left. simpl. rewrite Bool.negb_involutive. reflexivity.
  - left. simpl. rewrite Bool.negb_involutive. reflexivity.
  - unfold SF64sub, SFsub. rewrite (Z.min_comm ey ex).
    set (ez := Z.min ex ey).
    set (A := cond_Zopp sx (Zpos (fst (shl_align mx ex ez)))).
    set (B := cond_Zopp sy (Zpos (fst (shl_align my ey ez)))).
    destruct (Z.eq_dec (A - B) 0) as [E | E].
    + right. replace (B - A)%Z with 0%Z by lia. rewrite E.
      split; reflexivity.
    + left. replace (B - A)%Z with (- (A - B))%Z by lia.
      apply binary_normalize_opp. exact E.
Qed.

Lemma float_sub_antisym (x y : PrimFloat.float) :
  y - x = - (x - y) \/ (x - y = 0 /\ y - x = 0).
Proof.
  destruct (SF64sub_antisym (Prim2SF x) (Prim2SF y)) as [H | [H1 H2]].
  - left. apply Prim2SF_inj. rewrite opp_spec, !sub_spec. exact H.
  - right. split; apply Prim2SF_inj; rewrite sub_spec; assumption.
Qed.

Lemma float_opp_involutive (x : PrimFloat.float) : - - x = x.
Proof.
  apply Prim2SF_inj. rewrite !opp_spec.
  destruct (Prim2SF x) as [s | s | | s m e]; simpl;
    rewrite ?Bool.negb_involutive; reflexivity.
Qed.

Lemma SF64div_opp_l (X Y : spec_float) :
  SF64div (SFopp X) Y = SFopp (SF64div X Y).
Proof.
  destruct X as [sx | sx | | sx mx ex], Y as [sy | sy | | sy my ey];
    try reflexivity;
    unfold SF64div, SFdiv, SFopp; rewrite ?Bool.negb_xorb_l; try reflexivity.
  destruct (SFdiv_core_binary prec emax (Zpos mx) ex (Zpos my) ey)
    as [[mz ez] lz].
  rewrite <- Bool.negb_xorb_l. apply binary_round_aux_opp.
Qed.

Lemma float_div_opp_l (x y : PrimFloat.float) : (- x) / y = - (x / y).
Proof.
  apply Prim2SF_inj. rewrite opp_spec, !div_spec, opp_spec.
  apply SF64div_opp_l.
Qed.

Lemma SFeqb_opp (X : spec_float) : SFeqb (SFopp X) (SFopp X) = SFeqb X X.
Proof.
  destruct X as [[] | [] | | [] m e]; try reflexivity;
    cbn [SFeqb SFcompare SFopp negb];
    rewrite Z.compare_refl; fold (Pos.compare m m);
    rewrite Pos.compare_refl; reflexivity.
Qed.

Lemma is_nan_opp (x : PrimFloat.float) : is_nan (- x) = is_nan x.
Proof.
  unfold is_nan. rewrite !FloatAxioms.eqb_spec, !opp_spec, SFeqb_opp.
  reflexivity.
Qed.

Lemma is_infinity_opp (x : PrimFloat.float) : is_infinity (- x) = is_infinity x.
Proof.
  unfold is_infinity. rewrite !FloatAxioms.eqb_spec, !abs_spec, opp_spec.
  destruct (Prim2SF x) as [s | s | | s m e]; reflexivity.
Qed.

Lemma is_finite_opp (x : PrimFloat.float) : is_finite (- x) = is_finite x.
Proof. unfold is_finite. rewrite is_nan_opp, is_infinity_opp. reflexivity. Qed.

Lemma float_eqb_opp_zero (x : PrimFloat.float) : (- x =? 0) = (x =? 0).
Proof.
  rewrite !FloatAxioms.eqb_spec, opp_spec.
  change (Prim2SF 0) with (S754_zero false).
  destruct (Prim2SF x) as [[] | [] | | [] m e]; reflexivity.
Qed.

Lemma float_abs_opp (x : PrimFloat.float) : abs (- x) = abs x.
Proof.
  apply Prim2SF_inj. rewrite !abs_spec, opp_spec.
  destruct (Prim2SF x) as [s | s | | s m e]; reflexivity.
Qed.

(** There is one [nan], and it is its own opposite. *)
Lemma float_opp_nan (x : PrimFloat.float) : is_nan x = true -> - x = x.
Proof.
  unfold is_nan. rewrite FloatAxioms.eqb_spec. intros H.
  apply Prim2SF_inj. rewrite opp_spec.
  destruct (Prim2SF x) as [[] | [] | | [] m e]; try reflexivity;
    try discriminate H;
    cbn [SFeqb SFcompare negb] in H;
    rewrite Z.compare_refl in H; fold (Pos.compare m m) in H;
    rewrite Pos.compare_refl in H; discriminate H.
Qed.

(** The sign tests of [odd_extension]. *)
Lemma float_ltb_opp_zero (x : PrimFloat.float) : (- x <? 0) = (0 <? x).
Proof.
  rewrite !FloatAxioms.ltb_spec, opp_spec.
  change (Prim2SF 0) with (S754_zero false).
  destruct (Prim2SF x) as [[] | [] | | [] m e]; reflexivity.
Qed.

Lemma float_zero_ltb_opp (x : PrimFloat.float) : (0 <? - x) = (x <? 0).
Proof.
  rewrite !FloatAxioms.ltb_spec, opp_spec.
  change (Prim2SF 0) with (S754_zero false).
  destruct (Prim2SF x) as [[] | [] | | [] m e]; reflexivity.
Qed.

Lemma float_negative_not_positive (x : PrimFloat.float) :
  (x <? 0) = true -> (0 <? x) = false.
Proof.
  rewrite !FloatAxioms.ltb_spec.
  change (Prim2SF 0) with (S754_zero false).
  destruct (Prim2SF x) as [[] | [] | | [] m e];
    cbn [SFltb SFcompare]; intros H; try reflexivity; discriminate H.
Qed.

(** The first two terms of a running sum that starts at [0] can be
    exchanged. *)
Lemma SF64add_zero_swap (X Y : spec_float) :
  SF64add (SF64add (S754_zero false) X) Y
  = SF64add (SF64add (S754_zero false) Y) X.
Proof.
  destruct X as [[] | [] | | sx mx ex], Y as [[] | [] | | sy my ey];
    try reflexivity.
  change (SF64add (S754_zero false) (S754_finite sx mx ex))
    with (S754_finite sx mx ex).
  change (SF64add (S754_zero false) (S754_finite sy my ey))
    with (S754_finite sy my ey).
  apply SF64add_comm.
Qed.

Lemma float_add_zero_swap (x y : PrimFloat.float) : (0 + x) + y = (0 + y) + x.
Proof.
  apply Prim2SF_inj. rewrite !add_spec.
  change (Prim2SF 0) with (S754_zero false).
  apply SF64add_zero_swap.
Qed.

End Binary64Arithmetic.

(** ** The distance formula on binary64 *)

Lemma same_result_refl {A : Type} (x : Binary64.Result A) :
  Binary64.same_result x x.
Proof. destruct x; simpl; auto. Qed.

Section Binary64Symmetry.

Local Open Scope float_scope.

Variable L : Binary64.Libm.
Hypothesis Hodd : Binary64.odd_sin L.

(** The wrapper raises [ValueError] and nothing else. *)
Lemma math_1_cases (func : PrimFloat.float -> PrimFloat.float)
    (x : PrimFloat.float) :
  Binary64.math_1 func x = inl Binary64.MathDomainError \/
  Binary64.math_1 func x = inr (func x).
Proof.
  unfold Binary64.math_1. cbv zeta.
  destruct (is_nan (func x) && negb (is_nan x))%bool; [left; reflexivity |].
  destruct (is_infinity (func x) && is_finite x)%bool;
    [left | right]; reflexivity.
Qed.

Lemma math_sin_opp (x : PrimFloat.float) :
  Binary64.math_sin L (- x)
  = Binary64.bind (Binary64.math_sin L x) (fun s => Binary64.ret (- s)).
Proof.
  unfold Binary64.math_sin, Binary64.math_1. cbv zeta.
  rewrite Hodd, !is_nan_opp, is_infinity_opp, is_finite_opp.
  destruct (is_nan (Binary64.libm_sin L x) && negb (is_nan x))%bool;
    [reflexivity |].
  destruct (is_infinity (Binary64.libm_sin L x) && is_finite x)%bool;
    reflexivity.
Qed.

(** The square does not see the sign: [float.__pow__] takes the absolute
    value itself. *)
Lemma square_opp (s : PrimFloat.float) :
  Binary64.square L (- s) = Binary64.square L s.
Proof.
  unfold Binary64.square.
  rewrite is_nan_opp, is_infinity_opp, float_eqb_opp_zero, float_abs_opp.
  destruct (is_nan s) eqn:En; [| reflexivity].
  rewrite (float_opp_nan _ En). reflexivity.
Qed.

Lemma haversine_distance_parts (lat1 lon1 lat2 lon2 : PrimFloat.float) :
  Binary64.haversine_distance L (lat1, lon1) (lat2, lon2)
  = Binary64.bind
      (Binary64.half_chord L (Binary64.radians lat2 - Binary64.radians lat1))
      (fun p1 =>
    Binary64.bind (Binary64.math_cos L (Binary64.radians lat1)) (fun c1 =>
    Binary64.bind (Binary64.math_cos L (Binary64.radians lat2)) (fun c2 =>
    Binary64.bind
      (Binary64.half_chord L (Binary64.radians lon2 - Binary64.radians lon1))
      (fun p2 => Binary64.central_angle L p1 c1 c2 p2)))).
Proof.
  unfold Binary64.haversine_distance, Binary64.half_chord,
    Binary64.central_angle.
  destruct (Binary64.math_sin L
              ((Binary64.radians lat2 - Binary64.radians lat1) / 2))
    as [e | s1]; [reflexivity |].
  cbn [Binary64.bind].
  destruct (Binary64.square L s1) as [e | p1]; [reflexivity |].
  cbn [Binary64.bind].
  destruct (Binary64.math_cos L (Binary64.radians lat1)) as [e | c1];
    [reflexivity |].
  cbn [Binary64.bind].
  destruct (Binary64.math_cos L (Binary64.radians lat2)) as [e | c2];
    [reflexivity |].
  cbn [Binary64.bind].
  destruct (Binary64.math_sin L
              ((Binary64.radians lon2 - Binary64.radians lon1) / 2))
    as [e | s2]; reflexivity.
Qed.

Lemma half_chord_opp (d : PrimFloat.float) :
  Binary64.half_chord L (- d) = Binary64.half_chord L d.
Proof.
  unfold Binary64.half_chord. rewrite float_div_opp_l, math_sin_opp.
  destruct (Binary64.math_sin L (d / 2)) as [e | s]; [reflexivity |].
  cbn [Binary64.bind Binary64.ret]. apply square_opp.
Qed.

Lemma half_chord_sym (x y : PrimFloat.float) :
  Binary64.half_chord L (y - x) = Binary64.half_chord L (x - y).
Proof.
  destruct (float_sub_antisym x y) as [H | [H1 H2]].
  - rewrite H. apply half_chord_opp.
  - rewrite H1, H2. reflexivity.
Qed.

(** The distance between two coordinates does not depend on their order,
    to the last bit and to the error raised. *)
Lemma binary64_haversine_distance_sym (a b : Binary64.Coordinate) :
  Binary64.haversine_distance L a b = Binary64.haversine_distance L b a.
Proof.
  destruct a as [lat1 lon1], b as [lat2 lon2].
  rewrite !haversine_distance_parts.
  rewrite (half_chord_sym (Binary64.radians lat1) (Binary64.radians lat2)).
  rewrite (half_chord_sym (Binary64.radians lon1) (Binary64.radians lon2)).
  destruct (Binary64.half_chord L
              (Binary64.radians lat1 - Binary64.radians lat2)) as [e | p1];
    [reflexivity |].
  cbn [Binary64.bind]. unfold Binary64.math_cos.
  destruct (math_1_cases (Binary64.libm_cos L) (Binary64.radians lat1))
    as [E1 | E1],
    (math_1_cases (Binary64.libm_cos L) (Binary64.radians lat2))
    as [E2 | E2];
    rewrite E1, E2; try reflexivity.
  cbn [Binary64.bind].
  destruct (Binary64.half_chord L
              (Binary64.radians lon1 - Binary64.radians lon2)) as [e | p2];
    [reflexivity |].
  cbn [Binary64.bind]. unfold Binary64.central_angle.
  rewrite (float_mul_comm (Binary64.libm_cos L (Binary64.radians lat2))).
  reflexivity.
Qed.

(** The running sum of a tour of two and of three points. *)
Lemma binary64_total_distance_two (a b : Binary64.Coordinate) :
  Binary64.calculate_total_distance L [a; b]
  = Binary64.bind (Binary64.haversine_distance L a b) (fun x =>
    Binary64.bind (Binary64.haversine_distance L b a) (fun y =>
    Binary64.ret (0 + x + y))).
Proof.
  unfold Binary64.calculate_total_distance, Binary64.item.
  cbn [length seq fold_left nth Nat.add Nat.modulo Nat.divmod fst snd
       Nat.sub Binary64.bind Binary64.ret].
  destruct (Binary64.haversine_distance L a b); [reflexivity |].
  destruct (Binary64.haversine_distance L b a); reflexivity.
Qed.

Lemma binary64_total_distance_three (a b c : Binary64.Coordinate) :
  Binary64.calculate_total_distance L [a; b; c]
  = Binary64.bind (Binary64.haversine_distance L a b) (fun x =>
    Binary64.bind (Binary64.haversine_distance L b c) (fun y =>
    Binary64.bind (Binary64.haversine_distance L c a) (fun z =>
    Binary64.ret (0 + x + y + z)))).
Proof.
  unfold Binary64.calculate_total_distance, Binary64.item.
  cbn [length seq fold_left nth Nat.add Nat.modulo Nat.divmod fst snd
       Nat.sub Binary64.bind Binary64.ret].
  destruct (Binary64.haversine_distance L a b); [reflexivity |].
  destruct (Binary64.haversine_distance L b c); [reflexivity |].
  destruct (Binary64.haversine_distance L c a); reflexivity.
Qed.

Lemma binary64_total_distance_rev_three (a b c : Binary64.Coordinate) :
  Binary64.same_result
    (Binary64.calculate_total_distance L [c; b; a])
    (Binary64.calculate_total_distance L [a; b; c]).
Proof.
  rewrite !binary64_total_distance_three.
  rewrite (binary64_haversine_distance_sym c b),
    (binary64_haversine_distance_sym b a),
    (binary64_haversine_distance_sym a c).
  destruct (Binary64.haversine_distance L a b) as [e1 | x],
           (Binary64.haversine_distance L b c) as [e2 | y],
           (Binary64.haversine_distance L c a) as [e3 | z];
    cbn [Binary64.bind Binary64.ret Binary64.same_result]; auto.
  rewrite (float_add_zero_swap y x). reflexivity.
Qed.

End Binary64Symmetry.

(** The sample library is one with an odd sine. *)
Lemma sample_libm_odd : Binary64.odd_sin Binary64.sample_libm.
Proof.
  intros x. cbn [Binary64.sample_libm Binary64.libm_sin].
  unfold Binary64.odd_extension.
  rewrite float_ltb_opp_zero, float_zero_ltb_opp.
  destruct (PrimFloat.ltb x 0) eqn:Eneg.
  - rewrite (float_negative_not_positive x Eneg).
    rewrite float_opp_involutive. reflexivity.
  - destruct (PrimFloat.ltb 0 x); [| reflexivity].
    rewrite float_opp_involutive. reflexivity.
Qed.

(** ** Reversing a short route *)

(** C8 (as amended).  With a C library whose sine is odd, reversing the
    visit order of a route of at most three points leaves the result of
    [calculate_total_distance] unchanged, to the last bit: the reversed
    tour adds the same three distances, the first two in the other
    order. *)
Theorem calculate_total_distance_rev_small (L : Binary64.Libm)
    (r : Binary64.Route) :
  Binary64.odd_sin L ->
  (length r <= 3)%nat ->
  Binary64.same_result
    (Binary64.calculate_total_distance L (rev r))
    (Binary64.calculate_total_distance L r).
Proof.
  intros Hodd Hlen.
  destruct r as [| a [| b [| c [| d t]]]]; simpl in Hlen; try lia.
  - apply same_result_refl.
  - apply same_result_refl.
  - change (rev [a; b]) with [b; a].
    rewrite !binary64_total_distance_two.
    rewrite (binary64_haversine_distance_sym L Hodd b a).
    apply same_result_refl.
  - change (rev [a; b; c]) with [c; b; a].
    apply binary64_total_distance_rev_three; assumption.
Qed.

Lemma calculate_total_distance_rev_small_witness :
  Binary64.odd_sin Binary64.sample_libm /\
  (length Binary64.triangle <= 3)%nat /\
  Binary64.same_result
    (Binary64.calculate_total_distance Binary64.sample_libm
       (rev Binary64.triangle))
    (Binary64.calculate_total_distance Binary64.sample_libm
       Binary64.triangle).
Proof.
  split; [exact sample_libm_odd |].
  split; [vm_compute; lia |].
  apply calculate_total_distance_rev_small.
  - exact sample_libm_odd.
  - vm_compute. lia.
Defined.

(** ** The dispatcher *)

Lemma optimize_route_nil (method : string) :
  optimize_route [] method = inr ([], 0).
Proof. reflexivity. Qed.

Lemma optimize_route_singleton (p : Coordinate) (method : string) :
  optimize_route [p] method = inr ([p], 0).
Proof. reflexivity. Qed.

(** On two or more coordinates the dispatcher is the [if]/[elif] chain on
    the method, after [auto] was resolved. *)
Lemma optimize_route_dispatch (coordinates : Route) (method : string) :
  (2 <= length coordinates)%nat ->
  optimize_route coordinates method =
  let method :=
    if String.eqb method "auto"
    then if (length coordinates <=? 8)%nat
         then "brute_force"%string else "2opt"%string
    else method in
  if String.eqb method "brute_force"
  then let route := find_shortest_route_brute_force coordinates in
       inr (route, calculate_total_distance route)
  else if String.eqb method "nearest_neighbor"
  then let route := find_shortest_route_nearest_neighbor coordinates in
       inr (route, calculate_total_distance route)
  else if String.eqb method "2opt"
  then let route := find_shortest_route_2opt coordinates in
       inr (route, calculate_total_distance route)
  else inl invalid_method.
Proof.
  intros Hlen. destruct coordinates as [| a [| b t]]; simpl in Hlen; try lia.
  unfold optimize_route.
  change (length (a :: b :: t) =? 1)%nat with false. cbv zeta.
  destruct (String.eqb method "auto").
  - destruct (length (a :: b :: t) <=? 8)%nat; reflexivity.
  - destruct (String.eqb method "brute_force"); [reflexivity |].
    destruct (String.eqb method "nearest_neighbor"); [reflexivity |].
    destruct (String.eqb method "2opt"); reflexivity.
Qed.

(** C3 (as amended).  On two or more coordinates, a method outside
    [auto], [brute_force], [nearest_neighbor], [2opt] makes [optimize_route]
    raise the [ValueError]; the result is the error alone, no route and no
    distance are produced. *)
Theorem optimize_route_invalid_method (coordinates : Route) (method : string) :
  (2 <= length coordinates)%nat ->
  ~ valid_method method ->
  optimize_route coordinates method = inl invalid_method.
Proof.
  intros Hlen Hbad. rewrite optimize_route_dispatch by exact Hlen.
  unfold valid_method in Hbad. cbv zeta.
  destruct (String.eqb_spec method "auto") as [E | _]; [tauto |].
  destruct (String.eqb_spec method "brute_force") as [E | _]; [tauto |].
  destruct (String.eqb_spec method "nearest_neighbor") as [E | _]; [tauto |].
  destruct (String.eqb_spec method "2opt") as [E | _]; [tauto |].
  reflexivity.
Qed.

Lemma bogus_is_not_a_method : ~ valid_method "bogus".
Proof. unfold valid_method. intros [H | [H | [H | H]]]; discriminate H. Qed.

Lemma optimize_route_invalid_method_witness :
  optimize_route [(0, 0); (0, 1)] "bogus" = inl invalid_method.
Proof.
  apply optimize_route_invalid_method.
  - simpl. lia.
  - exact bogus_is_not_a_method.
Defined.

(** C3, the claim as stated fails on a single coordinate: the length test
    returns before the method is looked at, and the unknown method is
    accepted. *)
Lemma optimize_route_singleton_accepts_bogus :
  [(10, 20)] <> ([] : Route) /\
  ~ valid_method "bogus" /\
  optimize_route [(10, 20)] "bogus" = inr ([(10, 20)], 0).
Proof.
  split; [discriminate |].
  split; [exact bogus_is_not_a_method |].
  apply optimize_route_singleton.
Qed.

(** C4.  For each of the four methods, the empty list yields the empty
    route with distance 0 and a single coordinate yields itself with
    distance 0; neither is an error. *)
Theorem optimize_route_trivial_inputs (method : string) (p : Coordinate) :
  valid_method method ->
  optimize_route [] method = inr ([], 0) /\
  optimize_route [p] method = inr ([p], 0).
Proof.
  intros _. split.
  - apply optimize_route_nil.
  - apply optimize_route_singleton.
Qed.

Lemma optimize_route_trivial_inputs_witness :
  optimize_route [] "2opt" = inr ([], 0) /\
  optimize_route [(48, 2)] "2opt" = inr ([(48, 2)], 0).
Proof.
  apply optimize_route_trivial_inputs.
  unfold valid_method. right; right; right. reflexivity.
Defined.

(** C5.  On two or more coordinates [auto] is [brute_force] up to 8
    coordinates and [2opt] above, and [2opt] is the nearest-neighbour route
    put through [two_opt_improvement] with its default cap. *)
Theorem optimize_route_auto (coordinates : Route) :
  (2 <= length coordinates)%nat ->
  ((length coordinates <= 8)%nat ->
   optimize_route coordinates "auto" =
   optimize_route coordinates "brute_force") /\
  ((8 < length coordinates)%nat ->
   optimize_route coordinates "auto" = optimize_route coordinates "2opt") /\
  optimize_route coordinates "2opt" =
  (let route :=
     two_opt_improvement
       (find_shortest_route_nearest_neighbor coordinates) 1000 in
   inr (route, calculate_total_distance route)).
Proof.
  intros Hlen. rewrite !optimize_route_dispatch by exact Hlen.
  change (String.eqb "auto" "auto") with true.
  cbv zeta. repeat split.
  - intros Hle. apply Nat.leb_le in Hle. rewrite Hle. reflexivity.
  - intros Hgt. apply Nat.leb_gt in Hgt. rewrite Hgt. reflexivity.
Qed.

Lemma optimize_route_auto_witness :
  let coordinates : Route := [(0, 0); (0, 1); (1, 1)] in
  ((length coordinates <= 8)%nat ->
   optimize_route coordinates "auto" =
   optimize_route coordinates "brute_force") /\
  ((8 < length coordinates)%nat ->
   optimize_route coordinates "auto" = optimize_route coordinates "2opt") /\
  optimize_route coordinates "2opt" =
  (let route :=
     two_opt_improvement
       (find_shortest_route_nearest_neighbor coordinates) 1000 in
   inr (route, calculate_total_distance route)).
Proof.
  apply (optimize_route_auto [(0, 0); (0, 1); (1, 1)]).
  simpl. lia.
Defined.

Lemma calculate_total_distance_nil : calculate_total_distance [] = 0.
Proof. reflexivity. Qed.

Lemma calculate_total_distance_singleton (p : Coordinate) :
  calculate_total_distance [p] = 0.
Proof.
  unfold calculate_total_distance, item. simpl.
  rewrite haversine_distance_refl. apply Rplus_0_l.
Qed.



(** ** Distance zero *)

(** C7 (as amended).  Equal coordinates are at distance 0; in particular
    [haversine_distance a a = 0] for every valid [a]. *)
Theorem haversine_distance_zero_if_equal (a b : Coordinate) :
  valid_coordinate a -> valid_coordinate b ->
  a = b -> haversine_distance a b = 0.
Proof.
  intros _ _ ->. apply haversine_distance_refl.
Qed.

Lemma valid_coordinate_paris : valid_coordinate (48, 2).
Proof. unfold valid_coordinate; simpl; lra. Qed.

Lemma haversine_distance_zero_if_equal_witness :
  haversine_distance (48, 2) (48, 2) = 0.
Proof.
  apply haversine_distance_zero_if_equal.
  - exact valid_coordinate_paris.
  - exact valid_coordinate_paris.
  - reflexivity.
Defined.

(** C7, the claim as stated fails at a pole: every longitude names the same
    point there, so two valid coordinates that differ are at distance 0.
    The second longitude is 1e-300. *)
Lemma haversine_distance_zero_at_pole :
  valid_coordinate (90, 0) /\
  valid_coordinate (90, / 10 ^ 300) /\
  ((90, 0) : Coordinate) <> (90, / 10 ^ 300) /\
  haversine_distance (90, 0) (90, / 10 ^ 300) = 0.
Proof.
  assert (Hpos : 0 < / 10 ^ 300).
  { apply Rinv_0_lt_compat, pow_lt. lra. }
  assert (Hsmall : / 10 ^ 300 <= 1).
  { rewrite <- Rinv_1. apply Rinv_le_contravar; [lra |].
    apply pow_R1_Rle. lra. }
  repeat split; simpl; try lra.
  - intros E. injection E as E. lra.
  - unfold haversine_distance.
    replace (radians 90) with (PI / 2) by (unfold radians; field).
    replace ((PI / 2 - PI / 2) / 2) with 0 by lra.
    rewrite sin_0, cos_PI2.
    match goal with
    | |- 2 * asin (sqrt ?a) * 6371 = 0 => replace a with 0 by ring
    end.
    rewrite sqrt_0, asin_0. ring.
Qed.

(** ** [itertools.permutations] enumerates the permutations *)

Lemma selections_sound {A : Type} (pool : list A) (x : A) (rest : list A) :
  In (x, rest) (selections pool) -> Permutation pool (x :: rest).
Proof.
  revert x rest; induction pool as [| y ys IH]; intros x rest Hin; simpl in Hin.
  - contradiction.
  - destruct Hin as [E | Hin].
    + injection E as <- <-. apply Permutation_refl.
    + apply in_map_iff in Hin. destruct Hin as [[z zs] [E Hin]].
      simpl in E. injection E as <- <-.
      apply IH in Hin.
      apply perm_trans with (y :: z :: zs).
      * apply perm_skip. exact Hin.
      * apply perm_swap.
Qed.

Lemma selections_complete {A : Type} (l1 l2 : list A) (x : A) :
  In (x, l1 ++ l2) (selections (l1 ++ x :: l2)).
Proof.
  induction l1 as [| y l1 IH]; simpl.
  - destruct l2; left; reflexivity.
  - right. apply in_map_iff. exists (x, l1 ++ l2). split; [reflexivity | exact IH].
Qed.

Lemma permutations_of_length_sound {A : Type} (n : nat) :
  forall (pool p : list A),
    length pool = n -> In p (permutations_of_length n pool) ->
    Permutation pool p.
Proof.
  induction n as [| n IH]; intros pool p Hlen Hin; simpl in Hin.
  - destruct Hin as [<- | []].
    apply length_zero_iff_nil in Hlen. subst pool. apply perm_nil.
  - apply in_flat_map in Hin. destruct Hin as [[x rest] [Hsel Hin]].
    simpl in Hin. apply in_map_iff in Hin. destruct Hin as [q [<- Hq]].
    pose proof (selections_sound _ _ _ Hsel) as Hperm.
    apply perm_trans with (x :: rest); [exact Hperm |].
    apply perm_skip. apply IH; [| exact Hq].
    apply Permutation_length in Hperm. simpl in Hperm. lia.
Qed.

Lemma permutations_of_length_complete {A : Type} (n : nat) :
  forall (pool p : list A),
    length pool = n -> Permutation pool p ->
    In p (permutations_of_length n pool).
Proof.
  induction n as [| n IH]; intros pool p Hlen Hperm.
  - apply length_zero_iff_nil in Hlen. subst pool.
    apply Permutation_nil in Hperm. subst p. left; reflexivity.
  - destruct p as [| x q].
    + apply Permutation_length in Hperm. simpl in Hperm. lia.
    + assert (Hx : In x pool).
      { apply (Permutation_in x (Permutation_sym Hperm)). left; reflexivity. }
      apply in_split in Hx. destruct Hx as [l1 [l2 ->]].
      simpl. apply in_flat_map. exists (x, l1 ++ l2). split.
      * apply selections_complete.
      * simpl. apply in_map. apply IH.
        -- rewrite length_app in *. simpl in Hlen. lia.
        -- apply Permutation_cons_inv with x.
           apply perm_trans with (l1 ++ x :: l2); [| exact Hperm].
           apply Permutation_middle.
Qed.

Lemma permutations_spec {A : Type} (pool p : list A) :
  In p (permutations pool) <-> Permutation pool p.
Proof.
  unfold permutations. split.
  - apply permutations_of_length_sound. reflexivity.
  - apply permutations_of_length_complete. reflexivity.
Qed.

(** The enumeration order is that of [itertools.permutations]. *)
Example permutations_order :
  permutations [1; 2; 3]%nat =
  [[1; 2; 3]; [1; 3; 2]; [2; 1; 3]; [2; 3; 1]; [3; 1; 2]; [3; 2; 1]]%nat.
Proof. reflexivity. Qed.

(** ** The exhaustive search *)

Lemma lt_bound_true (d : R) (b : Bound) :
  lt_bound d b = true -> forall x, le_bound b x -> d <= x.
Proof.
  destruct b as [| s]; simpl; [contradiction |].
  destruct (Rlt_dec d s); [intros _ x Hx; lra | discriminate].
Qed.

Lemma lt_bound_false (d : R) (b : Bound) :
  lt_bound d b = false -> le_bound b d.
Proof.
  destruct b as [| s]; simpl; [discriminate |].
  destruct (Rlt_dec d s); [discriminate | intros _; lra].
Qed.

Section BruteForce.

Variable first_point : Coordinate.

Let step := brute_force_step first_point.
Let cost (perm : Route) := calculate_total_distance (first_point :: perm).

Lemma brute_force_step_le (st : Bound * Route) (perm : Route) (x : R) :
  le_bound (fst st) x -> le_bound (fst (step st perm)) x.
Proof.
  destruct st as [b r]. unfold step, brute_force_step. simpl.
  destruct (lt_bound _ b) eqn:E; simpl; [| tauto].
  intros Hx. exact (lt_bound_true _ _ E x Hx).
Qed.

Lemma brute_force_step_here (st : Bound * Route) (perm : Route) :
  le_bound (fst (step st perm)) (cost perm).
Proof.
  destruct st as [b r]. unfold step, brute_force_step, cost. simpl.
  destruct (lt_bound _ b) eqn:E; simpl.
  - lra.
  - exact (lt_bound_false _ _ E).
Qed.

Lemma brute_force_step_tracks (st : Bound * Route) (perm : Route) :
  tracks st -> tracks (step st perm).
Proof.
  destruct st as [b r]. unfold step, brute_force_step, tracks. simpl.
  destruct (lt_bound _ b); simpl; [reflexivity | tauto].
Qed.

Lemma brute_force_fold_le (perms : list Route) :
  forall (st : Bound * Route) (x : R),
    le_bound (fst st) x -> le_bound (fst (fold_left step perms st)) x.
Proof.
  induction perms as [| p perms IH]; intros st x Hx; simpl.
  - exact Hx.
  - apply IH. apply brute_force_step_le. exact Hx.
Qed.

Lemma brute_force_fold_min (perms : list Route) :
  forall (st : Bound * Route) (q : Route),
    In q perms -> le_bound (fst (fold_left step perms st)) (cost q).
Proof.
  induction perms as [| p perms IH]; intros st q Hq; simpl.
  - contradiction.
  - destruct Hq as [-> | Hq].
    + apply brute_force_fold_le. apply brute_force_step_here.
    + apply IH. exact Hq.
Qed.

Lemma brute_force_fold_tracks (perms : list Route) :
  forall st : Bound * Route, tracks st -> tracks (fold_left step perms st).
Proof.
  induction perms as [| p perms IH]; intros st Hst; simpl.
  - exact Hst.
  - apply IH. apply brute_force_step_tracks. exact Hst.
Qed.

Lemma brute_force_fold_route (perms : list Route) :
  forall st : Bound * Route,
    snd (fold_left step perms st) = snd st \/
    exists p, In p perms /\ snd (fold_left step perms st) = first_point :: p.
Proof.
  induction perms as [| p perms IH]; intros st; simpl.
  - left; reflexivity.
  - destruct (IH (step st p)) as [E | [q [Hq E]]].
    + rewrite E. destruct st as [b r]. unfold step, brute_force_step. simpl.
      destruct (lt_bound _ b); simpl.
      * right. exists p. split; [left |]; reflexivity.
      * left; reflexivity.
    + right. exists q. split; [right; exact Hq | exact E].
Qed.

End BruteForce.

(** On two or more coordinates the search returns the first coordinate
    followed by a permutation of the others, and no such route is shorter. *)
Lemma brute_force_fixed_first (first_point : Coordinate) (remaining : Route) :
  remaining <> [] ->
  exists p : Route,
    Permutation remaining p /\
    find_shortest_route_brute_force (first_point :: remaining)
    = first_point :: p /\
    forall q : Route,
      Permutation remaining q ->
      calculate_total_distance (first_point :: p)
      <= calculate_total_distance (first_point :: q).
Proof.
  intros Hne. unfold find_shortest_route_brute_force.
  replace (length (first_point :: remaining) <=? 1)%nat with false
    by (destruct remaining; [contradiction | reflexivity]).
  set (final := fold_left (brute_force_step first_point)
                  (permutations remaining)
                  (Inf, first_point :: remaining)).
  assert (Hmin : forall q, Permutation remaining q ->
            le_bound (fst final) (calculate_total_distance (first_point :: q))).
  { intros q Hq. apply brute_force_fold_min. apply permutations_spec, Hq. }
  assert (Htracks : tracks final).
  { apply brute_force_fold_tracks. exact I. }
  assert (Hroute : exists p, Permutation remaining p /\
                             snd final = first_point :: p).
  { destruct (brute_force_fold_route first_point (permutations remaining)
                (Inf, first_point :: remaining)) as [E | [p [Hp E]]].
    - exists remaining. split; [apply Permutation_refl | exact E].
    - exists p. split; [apply permutations_spec, Hp | exact E]. }
  destruct Hroute as [p [Hp E]]. exists p. repeat split; try assumption.
  intros q Hq. specialize (Hmin q Hq).
  unfold tracks in Htracks. fold final in E.
  destruct (fst final) as [| s]; simpl in Hmin; [contradiction |].
  rewrite <- E, <- Htracks. exact Hmin.
Qed.

(** Every ordering of the input is a rotation of one that starts with the
    first coordinate, and rotations have the same closed-tour length. *)
Lemma rotate_to_first (first_point : Coordinate) (remaining c : Route) :
  Permutation (first_point :: remaining) c ->
  exists q : Route,
    Permutation remaining q /\
    calculate_total_distance c
    = calculate_total_distance (first_point :: q).
Proof.
  intros Hperm.
  assert (Hin : In first_point c).
  { apply (Permutation_in _ Hperm). left; reflexivity. }
  apply in_split in Hin. destruct Hin as [l1 [l2 ->]].
  exists (l2 ++ l1). split.
  - apply Permutation_cons_inv with first_point.
    apply perm_trans with (l1 ++ first_point :: l2); [exact Hperm |].
    change (first_point :: l2 ++ l1) with ((first_point :: l2) ++ l1).
    apply Permutation_app_comm.
  - rewrite !calculate_total_distance_tour.
    rewrite tour_length_rotate. reflexivity.
Qed.



(** ** The nearest-neighbour construction *)

Lemma min_by_in (key : Coordinate -> R) (xs : list Coordinate) :
  forall x : Coordinate, In (min_by key x xs) (x :: xs).
Proof.
  unfold min_by. induction xs as [| y ys IH]; intros x; simpl.
  - left; reflexivity.
  - destruct (Rlt_dec (key y) (key x)).
    + right. apply IH.
    + destruct (IH x) as [E | Hin]; [left; exact E | right; right; exact Hin].
Qed.

(** [min] returns an element whose key no other element undercuts. *)
Lemma min_by_le (key : Coordinate -> R) (xs : list Coordinate) :
  forall x y : Coordinate,
    In y (x :: xs) -> key (min_by key x xs) <= key y.
Proof.
  unfold min_by. induction xs as [| z zs IH]; intros x y Hy; simpl.
  - destruct Hy as [<- | []]. lra.
  - destruct (Rlt_dec (key z) (key x)) as [Hlt | Hge].
    + destruct Hy as [<- | [<- | Hy]].
      * specialize (IH z z (or_introl eq_refl)). lra.
      * apply IH. left; reflexivity.
      * apply IH. right; exact Hy.
    + destruct Hy as [<- | [<- | Hy]].
      * apply IH. left; reflexivity.
      * specialize (IH x x (or_introl eq_refl)). lra.
      * apply IH. right; exact Hy.
Qed.

Lemma remove_first_perm (x : Coordinate) (l : list Coordinate) :
  In x l -> Permutation l (x :: remove_first x l).
Proof.
  induction l as [| y ys IH]; intros Hin; simpl.
  - contradiction.
  - destruct (Coordinate_eq_dec y x) as [-> | Hne].
    + apply Permutation_refl.
    + destruct Hin as [E | Hin]; [contradiction |].
      apply perm_trans with (y :: x :: remove_first x ys).
      * apply perm_skip. apply IH. exact Hin.
      * apply perm_swap.
Qed.

(** The loop moves points from [unvisited] to the end of [route]; with as
    many iterations as there are unvisited points it exits on the empty
    [unvisited], the [while] condition being false. *)
Lemma nearest_neighbor_loop_spec (fuel : nat) :
  forall route unvisited : Route,
    (length unvisited <= fuel)%nat ->
    let '(route', unvisited') := nearest_neighbor_loop fuel route unvisited in
    unvisited' = [] /\
    Permutation (route ++ unvisited) route' /\
    exists visited, route' = route ++ visited.
Proof.
  induction fuel as [| fuel IH]; intros route unvisited Hlen.
  - destruct unvisited; [| simpl in Hlen; lia]. simpl.
    rewrite app_nil_r. repeat split.
    + apply Permutation_refl.
    + exists []. rewrite app_nil_r. reflexivity.
  - destruct unvisited as [| p ps].
    + simpl. rewrite app_nil_r. repeat split.
      * apply Permutation_refl.
      * exists []. rewrite app_nil_r. reflexivity.
    + cbn [nearest_neighbor_loop].
      set (nearest := min_by (haversine_distance (last route (0, 0))) p ps).
      assert (Hin : In nearest (p :: ps)) by apply min_by_in.
      pose proof (remove_first_perm nearest (p :: ps) Hin) as Hperm.
      specialize (IH (route ++ [nearest]) (remove_first nearest (p :: ps))).
      destruct (nearest_neighbor_loop fuel (route ++ [nearest])
                  (remove_first nearest (p :: ps))) as [route' unvisited'].
      destruct IH as [Hnil [Hp [visited Hv]]].
      { apply Permutation_length in Hperm. simpl in *. lia. }
      repeat split.
      * exact Hnil.
      * apply perm_trans
          with ((route ++ [nearest]) ++ remove_first nearest (p :: ps));
          [| exact Hp].
        rewrite <- app_assoc. apply Permutation_app_head. exact Hperm.
      * exists (nearest :: visited). rewrite Hv, <- app_assoc. reflexivity.
Qed.

Lemma nearest_neighbor_perm (coordinates : Route) :
  Permutation coordinates (find_shortest_route_nearest_neighbor coordinates).
Proof.
  unfold find_shortest_route_nearest_neighbor.
  destruct (length coordinates <=? 1)%nat; [apply Permutation_refl |].
  destruct coordinates as [| first_point unvisited]; [apply perm_nil |].
  pose proof (nearest_neighbor_loop_spec (length unvisited)
                [first_point] unvisited (le_n _)) as H.
  destruct (nearest_neighbor_loop (length unvisited) [first_point] unvisited)
    as [route' unvisited'].
  destruct H as [_ [Hp _]]. exact Hp.
Qed.

(** ** The 2-opt improvement *)

Lemma reverse_segment_perm (r : Route) (i j : nat) :
  Permutation r (reverse_segment r i j).
Proof.
  unfold reverse_segment.
  rewrite <- (firstn_skipn i r) at 1.
  apply Permutation_app_head.
  rewrite <- (firstn_skipn (j + 1 - i) (skipn i r)) at 1.
  apply Permutation_app_tail. apply Permutation_rev.
Qed.

Lemma scan_j_invariant (r0 : Route) (i : nat) (js : list nat) :
  forall st, two_opt_invariant r0 st -> two_opt_invariant r0 (scan_j st i js).
Proof.
  induction js as [| j js IH]; intros st Hst; simpl.
  - exact Hst.
  - destruct ((j =? length (route st) - 1)%nat && (i =? 0)%nat)%bool.
    + apply IH. exact Hst.
    + destruct (Rlt_dec _ _) as [Hlt | _]; [| apply IH; exact Hst].
      destruct Hst as [Hp [_ [_ Hle]]].
      unfold two_opt_invariant; simpl. repeat split.
      * apply perm_trans with (route st); [exact Hp |].
        apply reverse_segment_perm.
      * lra.
Qed.

Lemma scan_i_invariant (r0 : Route) (n : nat) (rows : list nat) :
  forall st, two_opt_invariant r0 st -> two_opt_invariant r0 (scan_i st n rows).
Proof.
  induction rows as [| i rows IH]; intros st Hst; simpl.
  - exact Hst.
  - pose proof (scan_j_invariant r0 i (seq (i + 2) (n - (i + 2))) st Hst) as H.
    destruct (improved _); [exact H | apply IH; exact H].
Qed.

Lemma two_opt_loop_invariant (r0 : Route) (iterations : nat) :
  forall st,
    two_opt_invariant r0 st -> two_opt_invariant r0 (two_opt_loop iterations st).
Proof.
  induction iterations as [| k IH]; intros st Hst; simpl.
  - exact Hst.
  - match goal with
    | |- context [scan_i ?st0 ?n ?rows] =>
        pose proof (scan_i_invariant r0 n rows st0 Hst) as H
    end.
    destruct (negb _); [exact H | apply IH; exact H].
Qed.

Lemma two_opt_improvement_invariant (r : Route) (max_iterations : Z) :
  Permutation r (two_opt_improvement r max_iterations) /\
  calculate_total_distance (two_opt_improvement r max_iterations)
  <= calculate_total_distance r.
Proof.
  unfold two_opt_improvement.
  pose proof (two_opt_loop_invariant r (Z.to_nat max_iterations)
                (mkTwoOptState r r (calculate_total_distance r) false)) as H.
  destruct H as [Hp [Hb [Hd Hle]]].
  { unfold two_opt_invariant; simpl. repeat split.
    - apply Permutation_refl.
    - lra. }
  rewrite Hb. split; [exact Hp |].
  rewrite <- Hb, <- Hd. exact Hle.
Qed.

(** C2.  Whatever the starting route and the iteration cap, the route
    [two_opt_improvement] returns is not longer than the starting route. *)
Theorem two_opt_improvement_no_worse (r : Route) (max_iterations : Z) :
  calculate_total_distance (two_opt_improvement r max_iterations)
  <= calculate_total_distance r.
Proof.
  apply two_opt_improvement_invariant.
Qed.

(** ** Every strategy returns an ordering of its input *)

Lemma brute_force_perm (coordinates : Route) :
  Permutation coordinates (find_shortest_route_brute_force coordinates).
Proof.
  destruct coordinates as [| a [| b t]].
  - apply perm_nil.
  - apply Permutation_refl.
  - destruct (brute_force_fixed_first a (b :: t)) as [p [Hp [E _]]];
      [discriminate |].
    rewrite E. apply perm_skip. exact Hp.
Qed.

Lemma two_opt_perm (coordinates : Route) :
  Permutation coordinates (find_shortest_route_2opt coordinates).
Proof.
  unfold find_shortest_route_2opt. cbv zeta.
  apply perm_trans with (find_shortest_route_nearest_neighbor coordinates).
  - apply nearest_neighbor_perm.
  - apply two_opt_improvement_invariant.
Qed.



(** ** Up to three points *)

(** Both constructions keep the first coordinate first. *)
Lemma nearest_neighbor_fixed_first (first_point : Coordinate)
    (others : Route) :
  exists visited : Route,
    find_shortest_route_nearest_neighbor (first_point :: others)
    = first_point :: visited /\
    Permutation others visited.
Proof.
  destruct others as [| p ps].
  - exists []. split; [reflexivity | apply perm_nil].
  - unfold find_shortest_route_nearest_neighbor.
    change (length (first_point :: p :: ps) <=? 1)%nat with false.
    cbv iota.
    pose proof (nearest_neighbor_loop_spec (length (p :: ps))
                  [first_point] (p :: ps) (le_n _)) as H.
    destruct (nearest_neighbor_loop (length (p :: ps)) [first_point]
                (p :: ps)) as [route' unvisited'].
    destruct H as [_ [Hp [visited ->]]].
    exists visited. split; [reflexivity |].
    apply Permutation_cons_inv with first_point. exact Hp.
Qed.

(** The nearest-neighbour route is one of the candidates of the exhaustive
    search, so it is not shorter than the one the search keeps. *)
Lemma brute_force_le_nearest_neighbor (coordinates : Route) :
  calculate_total_distance (find_shortest_route_brute_force coordinates)
  <= calculate_total_distance
       (find_shortest_route_nearest_neighbor coordinates).
Proof.
  destruct coordinates as [| a [| b t]].
  - apply Rle_refl.
  - apply Rle_refl.
  - destruct (brute_force_fixed_first a (b :: t)) as [p [_ [E Hmin]]];
      [discriminate |].
    destruct (nearest_neighbor_fixed_first a (b :: t)) as [v [Ev Hv]].
    rewrite E, Ev. apply Hmin. exact Hv.
Qed.



(** ** Small runs *)

Example reverse_segment_inner :
  reverse_segment [(0, 0); (0, 1); (0, 2); (0, 3); (0, 4)] 1 3
  = [(0, 0); (0, 3); (0, 2); (0, 1); (0, 4)].
Proof. reflexivity. Qed.

Example reverse_segment_to_the_end :
  reverse_segment [(0, 0); (0, 1); (0, 2); (0, 3)] 1 3
  = [(0, 0); (0, 3); (0, 2); (0, 1)].
Proof. reflexivity. Qed.

Example selections_order :
  selections [1; 2; 3]%nat
  = [(1, [2; 3]); (2, [1; 3]); (3, [1; 2])]%nat.
Proof. reflexivity. Qed.

(** Two points: one candidate tour, taken against [float('inf')]. *)
Example brute_force_two_points (a b : Coordinate) :
  find_shortest_route_brute_force [a; b] = [a; b].
Proof. reflexivity. Qed.

Example nearest_neighbor_two_points (a b : Coordinate) :
  find_shortest_route_nearest_neighbor [a; b] = [a; b].
Proof.
  unfold find_shortest_route_nearest_neighbor. simpl.
  unfold min_by. simpl.
  destruct (Coordinate_eq_dec b b) as [_ | Hne]; [reflexivity | congruence].
Qed.

(** With a cap of 0, or a negative one, [range(max_iterations)] is empty and
    the route comes back unchanged. *)
Example two_opt_no_iteration (r : Route) (max_iterations : Z) :
  (max_iterations <= 0)%Z -> two_opt_improvement r max_iterations = r.
Proof.
  intros Hle. unfold two_opt_improvement.
  replace (Z.to_nat max_iterations) with 0%nat by lia. reflexivity.
Qed.

(** On three points the scan has no pair to try: [j] would have to be 2
    with [i = 0], the reversal of the whole route, which is skipped. *)
Example two_opt_three_points (a b c : Coordinate) (max_iterations : Z) :
  two_opt_improvement [a; b; c] max_iterations = [a; b; c].
Proof.
  unfold two_opt_improvement.
  destruct (Z.to_nat max_iterations) as [| k]; reflexivity.
Qed.

(** On four points the scan tries [(i, j) = (0, 2)] first; when that
    reversal is shorter it is taken at once. *)
Example two_opt_first_improvement (a b c d : Coordinate) :
  calculate_total_distance [c; b; a; d]
  < calculate_total_distance [a; b; c; d] ->
  two_opt_improvement [a; b; c; d] 1 = [c; b; a; d].
Proof.
  intros Hlt. unfold two_opt_improvement.
  change (Z.to_nat 1) with 1%nat.
  cbn -[calculate_total_distance Rlt_dec].
  destruct (Rlt_dec _ _) as [_ | Hn]; [reflexivity | contradiction].
Qed.

(** * Further properties of the distance layer *)

(** X1.  The distance does not depend on the order of its two arguments. *)
Theorem haversine_distance_symmetric (a b : Coordinate) :
  haversine_distance a b = haversine_distance b a.
Proof.
  apply haversine_distance_sym.
Qed.

(** * Further properties of the exhaustive search *)

Lemma flat_map_constant_length {A B : Type} (f : A -> list B) (k : nat)
    (l : list A) :
  (forall x, In x l -> length (f x) = k) ->
  length (flat_map f l) = (length l * k)%nat.
Proof.
  induction l as [| x xs IH]; intros H; simpl.
  - reflexivity.
  - rewrite length_app, IH by (intros y Hy; apply H; right; exact Hy).
    rewrite (H x) by (left; reflexivity). reflexivity.
Qed.

Lemma selections_length {A : Type} (pool : list A) :
  length (selections pool) = length pool.
Proof.
  induction pool as [| x xs IH]; simpl.
  - reflexivity.
  - rewrite length_map, IH. reflexivity.
Qed.

Lemma permutations_of_length_count {A : Type} (n : nat) :
  forall pool : list A,
    length pool = n -> length (permutations_of_length n pool) = fact n.
Proof.
  induction n as [| n IH]; intros pool Hlen; simpl.
  - reflexivity.
  - rewrite (flat_map_constant_length _ (fact n)).
    + rewrite selections_length, Hlen. simpl. reflexivity.
    + intros [x rest] Hin. simpl. rewrite length_map. apply IH.
      apply selections_sound, Permutation_length in Hin.
      simpl in Hin. lia.
Qed.

Lemma permutations_length {A : Type} (pool : list A) :
  length (permutations pool) = fact (length pool).
Proof.
  unfold permutations. apply permutations_of_length_count. reflexivity.
Qed.

(** X5.  On two or more coordinates the search is the fold of its
    comparison over a list of candidates that holds exactly the orderings
    of the coordinates after the first and has [(n - 1)!] entries for [n]
    coordinates. *)
Theorem brute_force_candidates (first_point : Coordinate)
    (remaining : Route) :
  remaining <> [] ->
  exists candidates : list Route,
    length candidates = fact (length (first_point :: remaining) - 1) /\
    (forall c : Route, In c candidates <-> Permutation remaining c) /\
    find_shortest_route_brute_force (first_point :: remaining)
    = snd (fold_left (brute_force_step first_point) candidates
             (Inf, first_point :: remaining)).
Proof.
  intros Hne. exists (permutations remaining). split; [| split].
  - replace (length (first_point :: remaining) - 1)%nat
      with (length remaining) by (simpl; lia).
    apply permutations_length.
  - intros c. apply permutations_spec.
  - unfold find_shortest_route_brute_force.
    replace (length (first_point :: remaining) <=? 1)%nat with false
      by (destruct remaining; [contradiction | reflexivity]).
    reflexivity.
Qed.

Lemma brute_force_candidates_witness :
  exists candidates : list Route,
    length candidates
    = fact (length ((0, 0) :: [(0, 1); (1, 1); (1, 0)]) - 1) /\
    (forall c : Route,
       In c candidates <-> Permutation [(0, 1); (1, 1); (1, 0)] c) /\
    find_shortest_route_brute_force ((0, 0) :: [(0, 1); (1, 1); (1, 0)])
    = snd (fold_left (brute_force_step (0, 0)) candidates
             (Inf, (0, 0) :: [(0, 1); (1, 1); (1, 0)])).
Proof.
  apply brute_force_candidates. discriminate.
Defined.

Lemma brute_force_step_unfold (first_point : Coordinate) (b : Bound)
    (r q : Route) :
  brute_force_step first_point (b, r) q =
  if lt_bound (candidate_cost first_point q) b
  then (Fin (candidate_cost first_point q), first_point :: q)
  else (b, r).
Proof. reflexivity. Qed.

Lemma lt_bound_Fin (d s : R) : lt_bound d (Fin s) = true <-> d < s.
Proof.
  simpl. destruct (Rlt_dec d s); split; intros H;
    try reflexivity; try assumption; try discriminate; contradiction.
Qed.

Lemma lt_bound_trans (d e : R) (b : Bound) :
  d < e -> lt_bound e b = true -> lt_bound d b = true.
Proof.
  destruct b as [| s]; [reflexivity |].
  rewrite !lt_bound_Fin. lra.
Qed.

Lemma lt_bound_cross (d e : R) (b : Bound) :
  lt_bound d b = true -> lt_bound e b = false -> d < e.
Proof.
  destruct b as [| s]; [discriminate |].
  rewrite lt_bound_Fin. simpl.
  destruct (Rlt_dec e s); [discriminate | intros; lra].
Qed.

(** The fold of the search from any state: either no candidate was below
    the bound and the state is unchanged, or the state holds the first
    candidate of minimal cost, which was below the bound. *)
Lemma brute_force_fold_first_minimum (first_point : Coordinate)
    (perms : list Route) :
  forall (b : Bound) (r : Route),
    (fold_left (brute_force_step first_point) perms (b, r) = (b, r) /\
     forall z, In z perms -> lt_bound (candidate_cost first_point z) b = false)
    \/
    exists m : Route,
      fold_left (brute_force_step first_point) perms (b, r)
      = (Fin (candidate_cost first_point m), first_point :: m) /\
      lt_bound (candidate_cost first_point m) b = true /\
      first_minimum (candidate_cost first_point) perms m.
Proof.
  induction perms as [| q qs IH]; intros b r.
  - left. split; [reflexivity | intros z []].
  - cbn [fold_left]. rewrite brute_force_step_unfold.
    destruct (lt_bound (candidate_cost first_point q) b) eqn:Eq.
    + right.
      destruct (IH (Fin (candidate_cost first_point q)) (first_point :: q))
        as [[E Hno] | [m [E [Hlt [pre [post [Hsplit [Hpre Hpost]]]]]]]].
      * exists q. split; [exact E |]. split; [exact Eq |].
        exists [], qs. split; [reflexivity |].
        split; [intros z [] |].
        intros z Hz. specialize (Hno z Hz).
        apply Rnot_lt_le. intros Hlt.
        apply lt_bound_Fin in Hlt. congruence.
      * apply lt_bound_Fin in Hlt.
        exists m. split; [exact E |]. split.
        -- exact (lt_bound_trans _ _ _ Hlt Eq).
        -- exists (q :: pre), post. rewrite Hsplit.
           split; [reflexivity |]. split; [| exact Hpost].
           intros z [<- | Hz]; [exact Hlt | apply Hpre, Hz].
    + destruct (IH b r)
        as [[E Hno] | [m [E [Hlt [pre [post [Hsplit [Hpre Hpost]]]]]]]].
      * left. split; [exact E |].
        intros z [<- | Hz]; [exact Eq | apply Hno, Hz].
      * right. exists m. split; [exact E |]. split; [exact Hlt |].
        exists (q :: pre), post. rewrite Hsplit.
        split; [reflexivity |]. split; [| exact Hpost].
        intros z [<- | Hz]; [| apply Hpre, Hz].
        exact (lt_bound_cross _ _ _ Hlt Eq).
Qed.

(** X6.  On two or more coordinates the search returns the first candidate,
    in the order of [itertools.permutations], whose tour is shortest: ties
    go to the candidate enumerated first. *)
Theorem brute_force_first_minimum (first_point : Coordinate)
    (remaining : Route) :
  remaining <> [] ->
  exists m : Route,
    find_shortest_route_brute_force (first_point :: remaining)
    = first_point :: m /\
    first_minimum (candidate_cost first_point) (permutations remaining) m.
Proof.
  intros Hne. unfold find_shortest_route_brute_force.
  replace (length (first_point :: remaining) <=? 1)%nat with false
    by (destruct remaining; [contradiction | reflexivity]).
  destruct (brute_force_fold_first_minimum first_point
              (permutations remaining) Inf (first_point :: remaining))
    as [[_ Hno] | [m [E [_ Hmin]]]].
  - assert (Hin : In remaining (permutations remaining))
      by apply permutations_spec, Permutation_refl.
    specialize (Hno remaining Hin). discriminate Hno.
  - exists m. rewrite E. split; [reflexivity | exact Hmin].
Qed.

Lemma brute_force_first_minimum_witness :
  exists m : Route,
    find_shortest_route_brute_force ((0, 0) :: [(0, 1); (1, 1)])
    = (0, 0) :: m /\
    first_minimum (candidate_cost (0, 0)) (permutations [(0, 1); (1, 1)]) m.
Proof.
  apply brute_force_first_minimum. discriminate.
Defined.

(** * Further properties of the nearest-neighbour construction *)

Lemma nearest_neighbor_loop_greedy (fuel : nat) :
  forall route unvisited : Route,
    (length unvisited <= fuel)%nat ->
    exists visited : Route,
      fst (nearest_neighbor_loop fuel route unvisited) = route ++ visited /\
      Permutation unvisited visited /\
      greedy_chain (last route (0, 0)) visited.
Proof.
  induction fuel as [| fuel IH]; intros route unvisited Hlen.
  - destruct unvisited; [| simpl in Hlen; lia].
    exists []. simpl. rewrite app_nil_r. repeat split. apply perm_nil.
  - destruct unvisited as [| p ps].
    + exists []. simpl. rewrite app_nil_r. repeat split. apply perm_nil.
    + cbn [nearest_neighbor_loop].
      set (current := last route (0, 0)).
      set (nearest := min_by (haversine_distance current) p ps).
      assert (Hin : In nearest (p :: ps)) by apply min_by_in.
      pose proof (remove_first_perm nearest (p :: ps) Hin) as Hperm.
      destruct (IH (route ++ [nearest]) (remove_first nearest (p :: ps)))
        as [visited [E [Hp Hg]]].
      { apply Permutation_length in Hperm. simpl in *. lia. }
      rewrite last_last in Hg.
      exists (nearest :: visited). split; [| split].
      * rewrite E, <- app_assoc. reflexivity.
      * apply perm_trans with (nearest :: remove_first nearest (p :: ps));
          [exact Hperm | apply perm_skip, Hp].
      * split; [| exact Hg].
        intros z Hz. apply (min_by_le (haversine_distance current)).
        apply Permutation_in with (nearest :: visited); [| exact Hz].
        apply Permutation_sym.
        apply perm_trans with (nearest :: remove_first nearest (p :: ps));
          [exact Hperm | apply perm_skip, Hp].
Qed.

(** X7.  The nearest-neighbour route starts at the first coordinate, visits
    the others each once, and every point after the first is, among the
    points not yet visited, one at least distance from its predecessor. *)
Theorem nearest_neighbor_greedy (first_point : Coordinate) (others : Route) :
  exists visited : Route,
    find_shortest_route_nearest_neighbor (first_point :: others)
    = first_point :: visited /\
    Permutation others visited /\
    greedy_chain first_point visited.
Proof.
  destruct others as [| p ps].
  - exists []. repeat split. apply perm_nil.
  - unfold find_shortest_route_nearest_neighbor.
    change (length (first_point :: p :: ps) <=? 1)%nat with false.
    cbv iota.
    destruct (nearest_neighbor_loop_greedy (length (p :: ps))
                [first_point] (p :: ps) (le_n _)) as [visited [E [Hp Hg]]].
    exists visited. rewrite E. repeat split; assumption.
Qed.

(** * Further properties of the 2-opt improvement *)

Lemma reverse_segment_length (r : Route) (i j : nat) :
  length (reverse_segment r i j) = length r.
Proof.
  apply Permutation_length, Permutation_sym, reverse_segment_perm.
Qed.

(** X8.  Reversing the same slice twice gives the route back, and a
    reversal keeps the number of points. *)
Theorem reverse_segment_involutive (r : Route) (i j : nat) :
  reverse_segment (reverse_segment r i j) i j = r /\
  length (reverse_segment r i j) = length r.
Proof.
  split; [| apply reverse_segment_length].
  unfold reverse_segment.
  set (k := (j + 1 - i)%nat).
  set (A := firstn k (skipn i r)).
  set (B := skipn k (skipn i r)).
  assert (HAB : skipn i r = A ++ B) by (symmetry; apply firstn_skipn).
  assert (HlenA : length (rev A) = length A) by apply length_rev.
  destruct (Nat.le_gt_cases i (length r)) as [Hi | Hi].
  - assert (Hpre : length (firstn i r) = i) by (apply firstn_length_le, Hi).
    assert (Hf : firstn i (firstn i r ++ rev A ++ B) = firstn i r).
    { rewrite firstn_app, Hpre, Nat.sub_diag, firstn_O, app_nil_r.
      rewrite <- Hpre at 1. apply firstn_all. }
    assert (Hs : skipn i (firstn i r ++ rev A ++ B) = rev A ++ B).
    { rewrite skipn_app, Hpre, Nat.sub_diag. simpl.
      rewrite <- Hpre at 1. rewrite skipn_all. reflexivity. }
    rewrite Hf, Hs.
    assert (HA : length A = k \/ B = []).
    { unfold A, B. destruct (Nat.le_gt_cases k (length (skipn i r))) as [H | H].
      - left. apply firstn_length_le, H.
      - right. apply skipn_all2. lia. }
    assert (E1 : firstn k (rev A ++ B) = rev A).
    { destruct HA as [HA | ->].
      - rewrite firstn_app, HlenA, HA, Nat.sub_diag, firstn_O, app_nil_r.
        rewrite <- HA, <- HlenA. apply firstn_all.
      - rewrite app_nil_r. apply firstn_all2.
        rewrite HlenA. unfold A. rewrite length_firstn. lia. }
    assert (E2 : skipn k (rev A ++ B) = B).
    { destruct HA as [HA | HB].
      - rewrite skipn_app, HlenA, HA, Nat.sub_diag. simpl.
        rewrite <- HA, <- HlenA. rewrite skipn_all. reflexivity.
      - rewrite HB, app_nil_r. apply skipn_all2.
        rewrite HlenA. unfold A. rewrite length_firstn. lia. }
    rewrite E1, E2, rev_involutive, <- HAB. apply firstn_skipn.
  - assert (Hsk : skipn i r = []) by (apply skipn_all2; lia).
    assert (HA0 : A = []) by (unfold A; rewrite Hsk; apply firstn_nil).
    assert (HB0 : B = []) by (unfold B; rewrite Hsk; apply skipn_nil).
    rewrite HA0, HB0. simpl. rewrite !app_nil_r.
    rewrite (firstn_all2 r) by lia.
    rewrite (firstn_all2 r) by lia.
    rewrite (skipn_all2 r) by lia.
    rewrite firstn_nil, skipn_nil. simpl. apply app_nil_r.
Qed.

(** The inner loop either leaves the state as it is, no pair it tried being
    shorter, or stops on the first shorter reversal. *)
Lemma scan_j_outcome (i : nat) (js : list nat) :
  forall st : TwoOptState,
    (scan_j st i js = st /\
     forall j, In j js ->
       ((j =? length (route st) - 1) && (i =? 0))%nat%bool = false ->
       best_distance st
       <= calculate_total_distance (reverse_segment (route st) i j))
    \/
    (improved (scan_j st i js) = true /\
     best_distance (scan_j st i js) < best_distance st /\
     exists j, In j js /\
       ((j =? length (route st) - 1) && (i =? 0))%nat%bool = false /\
       calculate_total_distance (reverse_segment (route st) i j)
       < best_distance st).
Proof.
  induction js as [| j js IH]; intros st.
  - left. split; [reflexivity | intros j []].
  - cbn [scan_j].
    destruct ((j =? length (route st) - 1) && (i =? 0))%nat%bool eqn:Eskip.
    + destruct (IH st) as [[E Hno] | [Himp [Hlt [j' [Hin [Hs Hd]]]]]].
      * left. split; [exact E |].
        intros j' [<- | Hj] Hs; [congruence | apply Hno; assumption].
      * right. split; [exact Himp |]. split; [exact Hlt |].
        exists j'. split; [right; exact Hin | split; assumption].
    + destruct (Rlt_dec _ _) as [Hlt | Hge].
      * right. simpl. split; [reflexivity |]. split; [exact Hlt |].
        exists j. split; [left; reflexivity | split; assumption].
      * destruct (IH st) as [[E Hno] | [Himp [Hlt [j' [Hin [Hs Hd]]]]]].
        -- left. split; [exact E |].
           intros j' [<- | Hj] Hs; [lra | apply Hno; assumption].
        -- right. split; [exact Himp |]. split; [exact Hlt |].
           exists j'. split; [right; exact Hin | split; assumption].
Qed.

Lemma scan_i_outcome (n : nat) (rows : list nat) :
  forall st : TwoOptState,
    improved st = false ->
    (scan_i st n rows = st /\
     forall i j, In i rows -> In j (seq (i + 2) (n - (i + 2))) ->
       ((j =? length (route st) - 1) && (i =? 0))%nat%bool = false ->
       best_distance st
       <= calculate_total_distance (reverse_segment (route st) i j))
    \/
    (improved (scan_i st n rows) = true /\
     best_distance (scan_i st n rows) < best_distance st /\
     exists i j, In i rows /\ In j (seq (i + 2) (n - (i + 2))) /\
       ((j =? length (route st) - 1) && (i =? 0))%nat%bool = false /\
       calculate_total_distance (reverse_segment (route st) i j)
       < best_distance st).
Proof.
  induction rows as [| i rows IH]; intros st Hst.
  - left. split; [reflexivity | intros i j []].
  - cbn [scan_i].
    destruct (scan_j_outcome i (seq (i + 2) (n - (i + 2))) st)
      as [[E Hno] | [Himp [Hlt [j [Hin [Hs Hd]]]]]].
    + rewrite E, Hst.
      destruct (IH st Hst)
        as [[E' Hno'] | [Himp [Hlt [i' [j [Hi [Hin [Hs Hd]]]]]]]].
      * left. split; [exact E' |].
        intros i' j [<- | Hi] Hj Hs; [apply Hno | apply (Hno' i')]; assumption.
      * right. split; [exact Himp |]. split; [exact Hlt |].
        exists i', j. repeat split; try assumption. right; exact Hi.
    + rewrite Himp. right. split; [exact Himp |]. split; [exact Hlt |].
      exists i, j. repeat split; try assumption. left; reflexivity.
Qed.

(** Membership in the two ranges of the scan is [two_opt_pair]. *)
Lemma two_opt_pair_scanned (n i j : nat) :
  two_opt_pair n i j <->
  In i (seq 0 n) /\ In j (seq (i + 2) (n - (i + 2))) /\
  ((j =? n - 1) && (i =? 0))%nat%bool = false.
Proof.
  unfold two_opt_pair. rewrite !in_seq, Bool.andb_false_iff.
  rewrite !Nat.eqb_neq. split.
  - intros [H1 [H2 H3]]. repeat split; lia.
  - intros [H1 [H2 H3]]. repeat split; lia.
Qed.

(** One pass of the outer loop body from a state whose [best_distance] is
    the distance of its route. *)
Lemma two_opt_pass_outcome (st : TwoOptState) :
  improved st = false ->
  best_distance st = calculate_total_distance (route st) ->
  let n := length (route st) in
  (scan_i st n (seq 0 n) = st /\ locally_optimal (route st)) \/
  (improved (scan_i st n (seq 0 n)) = true /\
   best_distance (scan_i st n (seq 0 n)) < best_distance st /\
   ~ locally_optimal (route st)).
Proof.
  intros Hst Hd n.
  destruct (scan_i_outcome n (seq 0 n) st Hst)
    as [[E Hno] | [Himp [Hlt [i [j [Hi [Hj [Hs Hshort]]]]]]]].
  - left. split; [exact E |].
    intros i j Hpair. apply two_opt_pair_scanned in Hpair.
    destruct Hpair as [Hi [Hj Hs]]. rewrite <- Hd. apply Hno; assumption.
  - right. split; [exact Himp |]. split; [exact Hlt |].
    intros Hopt. specialize (Hopt i j).
    rewrite Hd in Hshort.
    assert (Hpair : two_opt_pair (length (route st)) i j).
    { apply two_opt_pair_scanned. repeat split; assumption. }
    specialize (Hopt Hpair). lra.
Qed.

Lemma two_opt_invariant_rebase (r0 : Route) (st : TwoOptState) :
  two_opt_invariant r0 st -> two_opt_invariant (route st) st.
Proof.
  intros [_ [Hb [Hd _]]]. unfold two_opt_invariant.
  repeat split; try assumption.
  - apply Permutation_refl.
  - rewrite Hd, Hb. lra.
Qed.

Lemma two_opt_invariant_reset (r0 : Route) (st : TwoOptState) :
  two_opt_invariant r0 st ->
  two_opt_invariant r0
    (mkTwoOptState (route st) (best_route st) (best_distance st) false).
Proof. intros H. exact H. Qed.

(** The loop returns the route it was given when no reversal shortens it,
    and a strictly shorter one otherwise (given at least one iteration). *)
Lemma two_opt_loop_progress (r0 : Route) (k : nat) (st : TwoOptState) :
  two_opt_invariant r0 st ->
  (locally_optimal (route st) ->
   best_route (two_opt_loop k st) = best_route st) /\
  (~ locally_optimal (route st) -> (1 <= k)%nat ->
   best_distance (two_opt_loop k st) < best_distance st) /\
  (best_route (two_opt_loop k st) = best_route st \/
   best_distance (two_opt_loop k st) < best_distance st).
Proof.
  intros Hinv.
  destruct k as [| k].
  - simpl. repeat split; try reflexivity; [lia | left; reflexivity].
  - cbn [two_opt_loop]. cbv zeta.
    set (st0 := mkTwoOptState (route st) (best_route st)
                  (best_distance st) false).
    pose proof (two_opt_invariant_reset r0 st Hinv) as Hinv0. fold st0 in Hinv0.
    assert (Hd0 : best_distance st0 = calculate_total_distance (route st0)).
    { destruct Hinv0 as [_ [Hb [Hd _]]]. rewrite Hd, Hb. reflexivity. }
    destruct (two_opt_pass_outcome st0 eq_refl Hd0)
      as [[E Hopt] | [Himp [Hlt Hnot]]].
    + rewrite E. simpl. repeat split; try reflexivity.
      * intros Hn. contradiction.
      * left; reflexivity.
    + rewrite Himp. simpl.
      set (st1 := scan_i st0 (length (route st0)) (seq 0 (length (route st0))))
        in *.
      assert (Hinv1 : two_opt_invariant r0 st1)
        by (apply scan_i_invariant; exact Hinv0).
      pose proof (two_opt_loop_invariant (route st1) k st1
                    (two_opt_invariant_rebase r0 st1 Hinv1))
        as [_ [_ [_ Hle]]].
      assert (Hd1 : best_distance st1 = calculate_total_distance (route st1)).
      { destruct Hinv1 as [_ [Hb [Hd _]]]. rewrite Hd, Hb. reflexivity. }
      assert (Hfinal : best_distance (two_opt_loop k st1) < best_distance st).
      { rewrite <- Hd1 in Hle. simpl in Hlt. lra. }
      repeat split.
      * intros Hopt. contradiction.
      * intros _ _. exact Hfinal.
      * right. exact Hfinal.
Qed.

(** When the loop ran at least once and stopped without an improvement
    pending, the route it holds is a local optimum. *)
Lemma two_opt_loop_converged (r0 : Route) (k : nat) :
  forall st : TwoOptState,
    two_opt_invariant r0 st ->
    improved (two_opt_loop (S k) st) = false ->
    locally_optimal (best_route (two_opt_loop (S k) st)).
Proof.
  induction k as [| k IH]; intros st Hinv.
  - cbn [two_opt_loop]. cbv zeta.
    set (st0 := mkTwoOptState (route st) (best_route st)
                  (best_distance st) false).
    pose proof (two_opt_invariant_reset r0 st Hinv) as Hinv0. fold st0 in Hinv0.
    assert (Hd0 : best_distance st0 = calculate_total_distance (route st0)).
    { destruct Hinv0 as [_ [Hb [Hd _]]]. rewrite Hd, Hb. reflexivity. }
    destruct (two_opt_pass_outcome st0 eq_refl Hd0)
      as [[E Hopt] | [Himp [Hlt Hnot]]].
    + rewrite E. simpl. intros _.
      destruct Hinv as [_ [Hb _]]. rewrite Hb. exact Hopt.
    + rewrite Himp. cbn [negb two_opt_loop]. intros Hf. congruence.
  - remember (S k) as k' eqn:Ek'. cbn [two_opt_loop]. cbv zeta.
    set (st0 := mkTwoOptState (route st) (best_route st)
                  (best_distance st) false).
    pose proof (two_opt_invariant_reset r0 st Hinv) as Hinv0. fold st0 in Hinv0.
    assert (Hd0 : best_distance st0 = calculate_total_distance (route st0)).
    { destruct Hinv0 as [_ [Hb [Hd _]]]. rewrite Hd, Hb. reflexivity. }
    destruct (two_opt_pass_outcome st0 eq_refl Hd0)
      as [[E Hopt] | [Himp [Hlt Hnot]]].
    + rewrite E. simpl. intros _.
      destruct Hinv as [_ [Hb _]]. rewrite Hb. exact Hopt.
    + rewrite Himp. cbn [negb]. subst k'. apply IH.
      apply scan_i_invariant. exact Hinv0.
Qed.

Lemma two_opt_start_invariant (r : Route) :
  two_opt_invariant r (two_opt_start r).
Proof.
  unfold two_opt_invariant, two_opt_start; simpl. repeat split.
  - apply Permutation_refl.
  - lra.
Qed.

(** X9.  [two_opt_improvement] returns either the route it was given or a
    strictly shorter one. *)
Theorem two_opt_improvement_same_or_shorter (r : Route) (max_iterations : Z) :
  two_opt_improvement r max_iterations = r \/
  calculate_total_distance (two_opt_improvement r max_iterations)
  < calculate_total_distance r.
Proof.
  pose proof (two_opt_start_invariant r) as Hinv.
  destruct (two_opt_loop_progress r (Z.to_nat max_iterations) _ Hinv)
    as [_ [_ [E | Hlt]]].
  - left. exact E.
  - right.
    pose proof (two_opt_loop_invariant r (Z.to_nat max_iterations) _ Hinv)
      as [_ [_ [Hd _]]].
    unfold two_opt_improvement. fold (two_opt_start r).
    rewrite <- Hd. exact Hlt.
Qed.

(** X10.  With a cap of at least 1, the routes [two_opt_improvement]
    returns unchanged are exactly those no scanned reversal shortens. *)
Theorem two_opt_improvement_fixed_point (r : Route) (max_iterations : Z) :
  (1 <= max_iterations)%Z ->
  (two_opt_improvement r max_iterations = r <-> locally_optimal r).
Proof.
  intros Hcap.
  pose proof (two_opt_start_invariant r) as Hinv.
  destruct (two_opt_loop_progress r (Z.to_nat max_iterations) _ Hinv)
    as [Hkeep [Hstrict _]].
  pose proof (two_opt_loop_invariant r (Z.to_nat max_iterations) _ Hinv)
    as [_ [_ [Hd _]]].
  unfold two_opt_improvement. fold (two_opt_start r).
  split.
  - intros E.
    destruct (two_opt_pass_outcome (two_opt_start r) eq_refl eq_refl)
      as [[_ Hopt] | [_ [_ Hnot]]]; [exact Hopt |].
    specialize (Hstrict Hnot ltac:(lia)).
    rewrite Hd, E in Hstrict. simpl in Hstrict. lra.
  - intros Hopt. exact (Hkeep Hopt).
Qed.

Lemma two_opt_improvement_fixed_point_witness :
  two_opt_improvement [(0, 0); (0, 1); (1, 1); (1, 0); (2, 2)] 1000
  = [(0, 0); (0, 1); (1, 1); (1, 0); (2, 2)]
  <-> locally_optimal [(0, 0); (0, 1); (1, 1); (1, 0); (2, 2)].
Proof.
  apply two_opt_improvement_fixed_point. lia.
Defined.

(** X11.  When the loop stops because a whole scan found no shorter
    reversal (the flag [improved] is false at the end), and not because
    the cap was reached, the route returned is a local optimum of the
    reversals the scan tries. *)
Theorem two_opt_improvement_converged (r : Route) (max_iterations : Z) :
  (1 <= max_iterations)%Z ->
  improved (two_opt_loop (Z.to_nat max_iterations) (two_opt_start r)) = false ->
  locally_optimal (two_opt_improvement r max_iterations).
Proof.
  intros Hcap Hflag. unfold two_opt_improvement. fold (two_opt_start r).
  destruct (Z.to_nat max_iterations) as [| k] eqn:Ek; [lia |].
  apply (two_opt_loop_converged r k); [apply two_opt_start_invariant |].
  exact Hflag.
Qed.

(** A route no ordering of its points beats, in exact arithmetic, is one
    the scan cannot improve, and the scan of such a route ends at once. *)
Lemma brute_force_le (coordinates q : Route) :
  Permutation coordinates q ->
  calculate_total_distance (find_shortest_route_brute_force coordinates)
  <= calculate_total_distance q.
Proof.
  intros Hq. destruct coordinates as [| a [| b t]].
  - apply Permutation_nil in Hq. subst q. apply Rle_refl.
  - apply Permutation_length_1_inv in Hq. subst q. apply Rle_refl.
  - destruct (brute_force_fixed_first a (b :: t)) as [p [_ [E Hmin]]];
      [discriminate |].
    rewrite E. apply rotate_to_first in Hq.
    destruct Hq as [q' [Hq' ->]]. apply Hmin. exact Hq'.
Qed.

Lemma brute_force_locally_optimal (coordinates : Route) :
  locally_optimal (find_shortest_route_brute_force coordinates).
Proof.
  intros i j _. apply brute_force_le.
  apply perm_trans with (find_shortest_route_brute_force coordinates).
  - apply brute_force_perm.
  - apply reverse_segment_perm.
Qed.

Lemma two_opt_loop_at_optimum (r : Route) (k : nat) :
  locally_optimal r ->
  improved (two_opt_loop (S k) (two_opt_start r)) = false.
Proof.
  intros Hopt. cbn [two_opt_loop]. cbv zeta.
  change (mkTwoOptState (route (two_opt_start r))
            (best_route (two_opt_start r))
            (best_distance (two_opt_start r)) false)
    with (two_opt_start r).
  destruct (two_opt_pass_outcome (two_opt_start r) eq_refl eq_refl)
    as [[E _] | [_ [_ Hnot]]].
  - rewrite E. reflexivity.
  - contradiction.
Qed.

(** The route is the exhaustive search's answer on five points; the scan
    tries five reversals of it and finds none shorter. *)
Lemma two_opt_improvement_converged_witness :
  locally_optimal
    (two_opt_improvement
       (find_shortest_route_brute_force
          [(0, 0); (0, 1); (1, 1); (1, 0); (2, 2)]) 1000).
Proof.
  apply two_opt_improvement_converged.
  - lia.
  - change (Z.to_nat 1000) with (S 999).
    apply two_opt_loop_at_optimum. apply brute_force_locally_optimal.
Defined.

(** * Further properties of the dispatcher *)

(** Each of the four methods returns a route with its evaluated distance,
    and the route is an ordering of the input. *)
Lemma optimize_route_returns (coordinates : Route) (method : string) :
  valid_method method ->
  exists route : Route,
    optimize_route coordinates method
    = inr (route, calculate_total_distance route) /\
    Permutation coordinates route.
Proof.
  intros Hm.
  destruct coordinates as [| a [| b t]].
  - exists []. split; [reflexivity | apply perm_nil].
  - exists [a]. rewrite calculate_total_distance_singleton.
    split; [reflexivity | apply Permutation_refl].
  - rewrite optimize_route_dispatch by (simpl; lia).
    destruct Hm as [-> | [-> | [-> | ->]]]; cbv zeta.
    + change (String.eqb "auto" "auto") with true.
      destruct (length (a :: b :: t) <=? 8)%nat;
        eexists; (split; [reflexivity |]).
      * apply brute_force_perm.
      * apply two_opt_perm.
    + eexists. split; [reflexivity | apply brute_force_perm].
    + eexists. split; [reflexivity | apply nearest_neighbor_perm].
    + eexists. split; [reflexivity | apply two_opt_perm].
Qed.


(** * Properties of the reader *)

Lemma within_bounds (lo hi : R) (v : PyFloat) (x : R) :
  within lo hi v = Some x -> v = Finite x /\ lo <= x <= hi.
Proof.
  destruct v as [y |]; simpl; [| discriminate].
  destruct (Rle_dec lo y); [| discriminate].
  destruct (Rle_dec y hi); [| discriminate].
  intros E. injection E as <-. repeat split; assumption.
Qed.

(** What makes a line contribute a coordinate, whatever its number. *)
Lemma read_line_appended (B : Builtins) (line_num : nat) (raw : string)
    (c : Coordinate) :
  read_line B line_num raw = Appended c ->
  valid_coordinate c /\
  blank_or_comment (strip B raw) = false /\
  forall other : nat, read_line B other raw = Appended c.
Proof.
  unfold read_line. cbv zeta.
  destruct (blank_or_comment (strip B raw)); [discriminate |].
  destruct (if contains ","%char (strip B raw)
            then split_on_comma B (strip B raw)
            else split_on_whitespace B (strip B raw))
    as [| p0 [| p1 [| p2 rest]]]; try discriminate.
  destruct (float B (strip B p0)) as [lat |]; [| discriminate].
  destruct (float B (strip B p1)) as [lon |]; [| discriminate].
  destruct (within (-90) 90 lat) as [x |] eqn:Ex; [| discriminate].
  destruct (within (-180) 180 lon) as [y |] eqn:Ey; [| discriminate].
  intros E. injection E as <-.
  apply within_bounds in Ex. apply within_bounds in Ey.
  split; [| split; reflexivity].
  unfold valid_coordinate; simpl. tauto.
Qed.

Lemma read_line_skipped (B : Builtins) (line_num : nat) (raw : string) :
  read_line B line_num raw = Skipped <->
  blank_or_comment (strip B raw) = true.
Proof.
  unfold read_line. cbv zeta.
  destruct (blank_or_comment (strip B raw)); [tauto |].
  split; [| discriminate].
  destruct (if contains ","%char (strip B raw)
            then split_on_comma B (strip B raw)
            else split_on_whitespace B (strip B raw))
    as [| p0 [| p1 [| p2 rest]]]; try discriminate.
  destruct (float B (strip B p0)) as [lat |]; [| discriminate].
  destruct (float B (strip B p1)) as [lon |]; [| discriminate].
  destruct (within (-90) 90 lat); [| discriminate].
  destruct (within (-180) 180 lon); discriminate.
Qed.

Lemma enumerate_cons (start : nat) (line : string) (lines : list string) :
  enumerate start (line :: lines) = (start, line) :: enumerate (S start) lines.
Proof. reflexivity. Qed.

Lemma read_fold_coordinates (B : Builtins) (lines : list string) :
  forall (start : nat) (st : Route * list Warning),
    fst (fold_left (read_step B) (enumerate start lines) st)
    = fst st ++ flat_map (appended_by B) lines.
Proof.
  induction lines as [| line lines IH]; intros start [coordinates warnings].
  - simpl. rewrite app_nil_r. reflexivity.
  - rewrite enumerate_cons. cbn [fold_left flat_map].
    rewrite IH. unfold read_step, appended_by.
    destruct (read_line B start line) as [| w | c] eqn:E.
    + apply read_line_skipped in E.
      apply (read_line_skipped B 0) in E. rewrite E. reflexivity.
    + destruct (read_line B 0 line) as [| w' | c'] eqn:E0; try reflexivity.
      apply read_line_appended in E0. destruct E0 as [_ [_ E0]].
      rewrite (E0 start) in E. discriminate.
    + apply read_line_appended in E. destruct E as [_ [_ E]].
      rewrite (E 0%nat). simpl. rewrite <- app_assoc. reflexivity.
Qed.

Lemma read_fold_count (B : Builtins) (lines : list string) :
  forall (start : nat) (st : Route * list Warning),
    let st' := fold_left (read_step B) (enumerate start lines) st in
    (length (fst st') + length (snd st')
     = length (fst st) + length (snd st)
       + length (filter (fun raw => negb (blank_or_comment (strip B raw)))
                   lines))%nat.
Proof.
  induction lines as [| line lines IH]; intros start [coordinates warnings].
  - simpl. lia.
  - rewrite enumerate_cons. cbn [fold_left filter]. cbv zeta.
    rewrite IH. unfold read_step.
    destruct (read_line B start line) as [| w | c] eqn:E.
    + apply read_line_skipped in E. rewrite E. simpl. lia.
    + destruct (blank_or_comment (strip B line)) eqn:Eb.
      * apply (read_line_skipped B start) in Eb. congruence.
      * simpl. rewrite length_app. simpl. lia.
    + apply read_line_appended in E. destruct E as [_ [Eb _]].
      rewrite Eb. simpl. rewrite length_app. simpl. lia.
Qed.

Lemma read_lines_valid_fold (B : Builtins) (lines : list string) :
  Forall valid_coordinate (fst (read_lines B lines)).
Proof.
  unfold read_lines. rewrite read_fold_coordinates. simpl.
  apply Forall_flat_map. apply Forall_forall. intros raw _.
  unfold appended_by.
  destruct (read_line B 0 raw) as [| w | c] eqn:E; try constructor.
  - apply read_line_appended in E. tauto.
  - constructor.
Qed.

(** X13.  Every coordinate the reader returns has its latitude in
    [-90, 90] and its longitude in [-180, 180], whatever the lines hold. *)
Theorem read_lines_valid (B : Builtins) (lines : list string) :
  Forall valid_coordinate (fst (read_lines B lines)).
Proof.
  apply read_lines_valid_fold.
Qed.

(** X14.  Every line that is neither blank nor a comment after [strip]
    gives exactly one coordinate or exactly one warning; blank lines and
    lines starting with [#] give neither. *)
Theorem read_lines_accounting (B : Builtins) (lines : list string) :
  (length (fst (read_lines B lines)) + length (snd (read_lines B lines))
   = length (filter (fun raw => negb (blank_or_comment (strip B raw))) lines))
  %nat.
Proof.
  unfold read_lines.
  pose proof (read_fold_count B lines 1 ([], [])) as H.
  cbv zeta in H. rewrite H. reflexivity.
Qed.

(** X15.  The coordinates come in file order and a line's contribution
    does not depend on the lines around it: reading two blocks of lines one
    after the other gives the coordinates of the first followed by those of
    the second. *)
Theorem read_lines_app (B : Builtins) (lines1 lines2 : list string) :
  fst (read_lines B (lines1 ++ lines2))
  = fst (read_lines B lines1) ++ fst (read_lines B lines2).
Proof.
  unfold read_lines. rewrite !read_fold_coordinates. simpl.
  apply flat_map_app.
Qed.

Lemma within_inside (lo hi x : R) :
  lo <= x <= hi -> within lo hi (Finite x) = Some x.
Proof.
  intros [H1 H2]. simpl.
  destruct (Rle_dec lo x); [| contradiction].
  destruct (Rle_dec x hi); [reflexivity | contradiction].
Qed.

Lemma within_outside (lo hi x : R) :
  hi < x -> within lo hi (Finite x) = None.
Proof.
  intros H. simpl.
  destruct (Rle_dec lo x); [| reflexivity].
  destruct (Rle_dec x hi); [lra | reflexivity].
Qed.

(** A run on [sample_lines]. *)
Example read_lines_run :
  read_lines plain_builtins sample_lines
  = ([(48, 2)],
     [InvalidLatitude 4 (Finite 95); InvalidFormat 5 "48;2"]).
Proof.
  assert (E1 : read_line plain_builtins 1 "# start" = Skipped)
    by reflexivity.
  assert (E2 : read_line plain_builtins 2 "48,2" = Appended (48, 2)).
  { cbv -[within IZR].
    rewrite (within_inside (-90) 90 48) by lra.
    rewrite (within_inside (-180) 180 2) by lra. reflexivity. }
  assert (E3 : read_line plain_builtins 3 "" = Skipped) by reflexivity.
  assert (E4 : read_line plain_builtins 4 "95,2"
               = Warned (InvalidLatitude 4 (Finite 95))).
  { cbv -[within IZR].
    rewrite (within_outside (-90) 90 95) by lra. reflexivity. }
  assert (E5 : read_line plain_builtins 5 "48;2"
               = Warned (InvalidFormat 5 "48;2")) by reflexivity.
  unfold read_lines, enumerate, sample_lines.
  cbn [length seq combine fold_left]. unfold read_step.
  rewrite E1, E2, E3, E4, E5. reflexivity.
Qed.

(** * Properties of [main] *)



(** * The choice of the nearest point *)

Lemma min_by_cons (key : Coordinate -> R) (x y : Coordinate)
    (ys : list Coordinate) :
  min_by key x (y :: ys)
  = min_by key (if Rlt_dec (key y) (key x) then y else x) ys.
Proof. reflexivity. Qed.

Lemma min_by_first_minimum (key : Coordinate -> R) (xs : list Coordinate) :
  forall x : Coordinate, first_minimum key (x :: xs) (min_by key x xs).
Proof.
  induction xs as [| y ys IH]; intros x.
  - exists [], []. repeat split; intros z [].
  - rewrite min_by_cons.
    destruct (Rlt_dec (key y) (key x)) as [Hlt | Hge].
    + destruct (IH y) as [pre [post [E [Hpre Hpost]]]].
      set (m := min_by key y ys) in *.
      exists (x :: pre), post. split; [simpl; f_equal; exact E |].
      split; [| exact Hpost].
      intros z [<- | Hz]; [| apply Hpre, Hz].
      destruct pre as [| y' pre'].
      * simpl in E. injection E as E _. rewrite <- E. exact Hlt.
      * simpl in E. injection E as E _. subst y'.
        specialize (Hpre y (or_introl eq_refl)). lra.
    + destruct (IH x) as [pre [post [E [Hpre Hpost]]]].
      set (m := min_by key x ys) in *.
      destruct pre as [| x' pre'].
      * simpl in E. injection E as Em Epost.
        exists [], (y :: ys).
        split; [simpl; f_equal; exact Em |]. split; [intros z [] |].
        intros z [<- | Hz]; [rewrite <- Em; lra |].
        apply Hpost. rewrite <- Epost. exact Hz.
      * simpl in E. injection E as Ex Eys. subst x'.
        exists (x :: y :: pre'), post.
        split; [simpl; do 2 f_equal; exact Eys |].
        split; [| exact Hpost].
        intros z [<- | [<- | Hz]].
        -- apply Hpre. left; reflexivity.
        -- specialize (Hpre x (or_introl eq_refl)). lra.
        -- apply Hpre. right; exact Hz.
Qed.

Lemma remove_first_at (m : Coordinate) (pre post : list Coordinate) :
  (forall z, In z pre -> z <> m) ->
  remove_first m (pre ++ m :: post) = pre ++ post.
Proof.
  induction pre as [| y pre IH]; intros Hpre; simpl.
  - destruct (Coordinate_eq_dec m m); [reflexivity | congruence].
  - destruct (Coordinate_eq_dec y m) as [E | _].
    + exfalso. apply (Hpre y); [left; reflexivity | exact E].
    + rewrite IH; [reflexivity |]. intros z Hz. apply Hpre. right; exact Hz.
Qed.

(** X17.  One iteration of the nearest-neighbour loop appends the first
    point of [unvisited] at minimal distance from the last point of the
    route, and [remove] takes that very occurrence out, the other points
    keeping their order. *)
Theorem nearest_neighbor_step (fuel : nat) (route : Route)
    (p : Coordinate) (ps : Route) :
  exists (m : Coordinate) (pre post : Route),
    p :: ps = pre ++ m :: post /\
    (forall z, In z pre ->
       haversine_distance (last route (0, 0)) m
       < haversine_distance (last route (0, 0)) z) /\
    (forall z, In z post ->
       haversine_distance (last route (0, 0)) m
       <= haversine_distance (last route (0, 0)) z) /\
    nearest_neighbor_loop (S fuel) route (p :: ps)
    = nearest_neighbor_loop fuel (route ++ [m]) (pre ++ post).
Proof.
  destruct (min_by_first_minimum
              (haversine_distance (last route (0, 0))) ps p)
    as [pre [post [E [Hpre Hpost]]]].
  set (m := min_by (haversine_distance (last route (0, 0))) p ps) in *.
  exists m, pre, post.
  repeat split; try assumption.
  cbn [nearest_neighbor_loop]. cbv zeta. fold m.
  rewrite E. rewrite remove_first_at; [reflexivity |].
  intros z Hz Ez. specialize (Hpre z Hz). rewrite Ez in Hpre. lra.
Qed.

(** * The warnings of the reader *)

Lemma read_fold_warnings (B : Builtins) (lines : list string) :
  forall (start : nat) (st : Route * list Warning),
    snd (fold_left (read_step B) (enumerate start lines) st)
    = snd st ++ flat_map (warned_by B) (enumerate start lines).
Proof.
  induction lines as [| line lines IH]; intros start [coordinates warnings].
  - simpl. rewrite app_nil_r. reflexivity.
  - rewrite enumerate_cons. cbn [fold_left flat_map].
    rewrite IH. unfold read_step, warned_by. simpl fst. simpl snd.
    destruct (read_line B start line) as [| w | c]; simpl.
    + reflexivity.
    + rewrite <- app_assoc. reflexivity.
    + reflexivity.
Qed.

Lemma read_line_warning_line (B : Builtins) (n : nat) (raw : string)
    (w : Warning) :
  read_line B n raw = Warned w -> warning_line w = n.
Proof.
  unfold read_line. cbv zeta.
  destruct (blank_or_comment (strip B raw)); [discriminate |].
  destruct (if contains ","%char (strip B raw)
            then split_on_comma B (strip B raw)
            else split_on_whitespace B (strip B raw))
    as [| p0 [| p1 [| p2 rest]]];
    try (intros E; injection E as <-; reflexivity).
  destruct (float B (strip B p0)) as [lat |];
    [| intros E; injection E as <-; reflexivity].
  destruct (float B (strip B p1)) as [lon |];
    [| intros E; injection E as <-; reflexivity].
  destruct (within (-90) 90 lat);
    [| intros E; injection E as <-; reflexivity].
  destruct (within (-180) 180 lon);
    [discriminate | intros E; injection E as <-; reflexivity].
Qed.

Lemma in_enumerate (start : nat) (lines : list string) (n : nat)
    (raw : string) :
  In (n, raw) (enumerate start lines) ->
  (start <= n)%nat /\ nth_error lines (n - start) = Some raw.
Proof.
  revert start; induction lines as [| line lines IH]; intros start Hin.
  - contradiction.
  - rewrite enumerate_cons in Hin. destruct Hin as [E | Hin].
    + injection E as <- <-. rewrite Nat.sub_diag. split; [lia | reflexivity].
    + apply IH in Hin. destruct Hin as [Hle Hnth]. split; [lia |].
      replace (n - start)%nat with (S (n - S start)) by lia. exact Hnth.
Qed.

(** X18.  Every warning names the line that caused it: its line number is
    the 1-based position, in the file, of a line that is neither blank nor
    a comment and on which the reader gives that warning. *)
Theorem read_lines_warning_lines (B : Builtins) (lines : list string)
    (w : Warning) :
  In w (snd (read_lines B lines)) ->
  exists raw : string,
    (1 <= warning_line w)%nat /\
    nth_error lines (warning_line w - 1) = Some raw /\
    blank_or_comment (strip B raw) = false /\
    read_line B (warning_line w) raw = Warned w.
Proof.
  unfold read_lines. rewrite read_fold_warnings. simpl.
  intros Hin. apply in_flat_map in Hin.
  destruct Hin as [[n raw] [Hnum Hw]].
  unfold warned_by in Hw. simpl in Hw.
  destruct (read_line B n raw) as [| w' | c] eqn:E; try contradiction.
  destruct Hw as [<- | []].
  pose proof (read_line_warning_line B n raw w' E) as Hn.
  apply in_enumerate in Hnum. destruct Hnum as [Hle Hnth].
  exists raw. rewrite Hn. repeat split; try assumption.
  destruct (blank_or_comment (strip B raw)) eqn:Eb; [| reflexivity].
  apply (read_line_skipped B n) in Eb. congruence.
Qed.

Lemma read_lines_warning_lines_witness :
  exists raw : string,
    (1 <= warning_line (InvalidFormat 5 "48;2"))%nat /\
    nth_error sample_lines (warning_line (InvalidFormat 5 "48;2") - 1)
    = Some raw /\
    blank_or_comment (strip plain_builtins raw) = false /\
    read_line plain_builtins (warning_line (InvalidFormat 5 "48;2")) raw
    = Warned (InvalidFormat 5 "48;2").
Proof.
  apply (read_lines_warning_lines plain_builtins sample_lines).
  rewrite read_lines_run. simpl. right; left; reflexivity.
Defined.

(** * Runs on binary64

    The claims that compare the sums of two different orderings fail on the
    rounded sums.  Each run below is the code's own computation, for any C
    library that returns the values of [Binary64.has_values], and then for
    [Binary64.sample_libm]. *)

Lemma sample_libm_has_values : Binary64.has_values Binary64.sample_libm.
Proof.
  unfold Binary64.has_values. repeat split; repeat constructor.
Qed.

Section AnyLibm.

Variable L : Binary64.Libm.
Hypothesis HL : Binary64.has_values L.

Ltac use_values :=
  let H := fresh "H" in
  pose proof HL as H;
  unfold Binary64.has_values, Binary64.sin_values, Binary64.cos_values,
    Binary64.asin_values, Binary64.pow2_values in H;
  repeat rewrite Forall_cons_iff in H;
  cbn [fst snd] in H;
  decompose [and] H; clear H.

Ltac run :=
  repeat
    (cbv -[Binary64.libm_sin Binary64.libm_cos Binary64.libm_asin
           Binary64.libm_pow2];
     repeat match goal with
            | E : _ L _ = _ |- _ => progress rewrite E
            end);
  try reflexivity.

Lemma square_route_sum :
  Binary64.calculate_total_distance L Binary64.square_route
  = inr 0x1.0c6f9334cabc1p+9%float.
Proof. use_values. run. Qed.

Lemma square_route_reversed_sum :
  Binary64.calculate_total_distance L (rev Binary64.square_route)
  = inr 0x1.0c6f9334cabc2p+9%float.
Proof. use_values. run. Qed.

Lemma triangle_sums :
  Binary64.calculate_total_distance L Binary64.triangle
  = inr 0x1.7ba3a4e04e3b6p+8%float /\
  Binary64.calculate_total_distance L (rev Binary64.triangle)
  = inr 0x1.7ba3a4e04e3b6p+8%float.
Proof. use_values. split; run. Qed.

Lemma long_triangle_exact :
  Binary64.optimize_route L Binary64.long_triangle "brute_force"
  = inr (Binary64.long_triangle, 0x1.fb35e819ea13ep+9%float).
Proof. use_values. run. Qed.

Lemma long_triangle_from_second_sum :
  Binary64.calculate_total_distance L Binary64.long_triangle_from_second
  = inr 0x1.fb35e819ea13dp+9%float.
Proof. use_values. run. Qed.

Lemma triangle_exact :
  Binary64.optimize_route L Binary64.triangle "brute_force"
  = inr ([(0, 0); (1, 1); (0, 1)]%float, 0x1.7ba3a4e04e3b5p+8%float).
Proof. use_values. run. Qed.

Lemma triangle_greedy :
  Binary64.optimize_route L Binary64.triangle "nearest_neighbor"
  = inr (Binary64.triangle, 0x1.7ba3a4e04e3b6p+8%float).
Proof. use_values. run. Qed.

End AnyLibm.

(** C8, the claim as stated fails on four points: the tour through
    [(0,0), (0,1), (1,0), (1,1)] sums to 536.8716798772731 and its reversal
    to 536.8716798772732. *)
Lemma reversal_changes_the_sum :
  Binary64.calculate_total_distance Binary64.sample_libm
    Binary64.square_route
  = inr 0x1.0c6f9334cabc1p+9%float /\
  Binary64.calculate_total_distance Binary64.sample_libm
    (rev Binary64.square_route)
  = inr 0x1.0c6f9334cabc2p+9%float /\
  (0x1.0c6f9334cabc1p+9 =? 0x1.0c6f9334cabc2p+9)%float = false.
Proof.
  split; [| split].
  - apply square_route_sum, sample_libm_has_values.
  - apply square_route_reversed_sum, sample_libm_has_values.
  - reflexivity.
Qed.

(** On three points the two sums are the same number,
    379.63923456106147. *)
Example reversal_keeps_the_sum_of_three :
  Binary64.calculate_total_distance Binary64.sample_libm Binary64.triangle
  = inr 0x1.7ba3a4e04e3b6p+8%float /\
  Binary64.calculate_total_distance Binary64.sample_libm
    (rev Binary64.triangle)
  = inr 0x1.7ba3a4e04e3b6p+8%float.
Proof. apply triangle_sums, sample_libm_has_values. Qed.


